(** * The [tmpl] generator of go/arrow/_tools/tmpl/main.go

    A shallow embedding of the template tool: the comment stripper
    [StripComments], the path resolver [parsePath], the [-d NAME=VALUE]
    flag value [listValue] and the generation loop [process], followed by
    the properties established about them.

    Conventions.
    - [[]byte] is [list byte]; a Go [string] is a [string] of the standard
      library ([\[\]byte(s)] is [list_byte_of_string s]).
    - Slice indices are [nat]: every index the program computes lies between
      [0] and [len(raw) + 1] (lemma [loop_index_bound]), so Go's [int] never
      wraps here.  A search that answers [-1] in Go answers [None].
    - [errExit] ends the process: computations that may call it live in the
      monad [M], whose outcome is either a value or an exit status. *)

From Stdlib Require Import Strings.Byte Strings.Ascii.
From stdpp Require Import gmap strings list.

#[global] Instance byte_eq_dec : EqDecision byte := Byte.byte_eq_dec.

(** ** Named bytes *)

Definition bNewline : byte := x0a.     (* line feed *)
Definition bDQuote : byte := x22.      (* double quote *)
Definition bSQuote : byte := x27.      (* single quote *)
Definition bStar : byte := x2a.        (* star *)
Definition bSlash : byte := x2f.       (* slash *)
Definition bBackslash : byte := x5c.   (* backslash *)

(** ** The part of Go's package [bytes] the stripper calls *)

Module bytes.

(** [bytes.IndexByte(b, c)]: index of the first [c] in [b]. *)
Fixpoint IndexByte (b : list byte) (c : byte) : option nat :=
  match b with
  | [] => None
  | x :: t => if Byte.eqb x c then Some 0 else S <$> IndexByte t c
  end.

(** [bytes.HasPrefix(s, prefix)]. *)
Fixpoint HasPrefix (s prefix : list byte) : bool :=
  match prefix, s with
  | [], _ => true
  | _ :: _, [] => false
  | p :: prefix', x :: s' => Byte.eqb x p && HasPrefix s' prefix'
  end.

(** [bytes.Index(s, sep)]: index of the first occurrence of [sep] in [s]. *)
Fixpoint Index (s sep : list byte) : option nat :=
  if HasPrefix s sep then Some 0
  else match s with
       | [] => None
       | _ :: t => S <$> Index t sep
       end.

End bytes.

(** ** StripComments *)

(** The local variables of [StripComments] that live across iterations. *)
Record scanner : Type := Scanner {
  i : nat;
  quoted : bool;
  esc : bool;
  comment : bool;
  buf : list byte
}.

(** One iteration of the [for] loop, the post statement [i++] included.
    It is only run under the guard [i < len(raw)], so [raw !! i] is [Some b]
    whenever the loop runs it. *)
Definition body (raw : list byte) (s : scanner) : scanner :=
  match raw !! i s with
  | None => s
  | Some b =>
    if comment s then
      if Byte.eqb b bSlash then
        (* comment = false; j := bytes.IndexByte(raw[i+1:], newline) *)
        match bytes.IndexByte (drop (S (i s)) raw) bNewline with
        | None => Scanner (S (length raw)) (quoted s) (esc s) false (buf s)
        | Some j => Scanner (S (i s + j)) (quoted s) (esc s) false (buf s)
        end
      else if Byte.eqb b bStar then
        (* j := bytes.Index(raw[i+1:], star-slash) *)
        match bytes.Index (drop (S (i s)) raw) [bStar; bSlash] with
        | None => Scanner (S (length raw)) (quoted s) (esc s) true (buf s)
        | Some j => Scanner (S (i s + (j + 2))) (quoted s) (esc s) false (buf s)
        end
      else Scanner (S (i s)) (quoted s) (esc s) true (buf s)
    else if esc s then
      Scanner (S (i s)) (quoted s) false false (buf s)
    else if Byte.eqb b bBackslash && quoted s then
      Scanner (S (i s)) (quoted s) true false (buf s)
    else
      let quoted' :=
        if Byte.eqb b bDQuote || Byte.eqb b bSQuote
        then negb (quoted s) else quoted s in
      if Byte.eqb b bSlash && negb quoted' then
        Scanner (S (i s)) quoted' false true (buf s)
      else
        Scanner (S (i s)) quoted' false false (buf s ++ [b])
  end.

(** The loop, run for at most [fuel] iterations. *)
Fixpoint loop (fuel : nat) (raw : list byte) (s : scanner) : scanner :=
  match fuel with
  | 0 => s
  | S fuel' =>
    if i s <? length raw then loop fuel' raw (body raw s) else s
  end.

Definition start : scanner := Scanner 0 false false false [].

(** The scanner when the loop is left; [len(raw)] iterations are enough
    because every iteration advances [i] (lemma [final_index]). *)
Definition final (raw : list byte) : scanner := loop (length raw) raw start.

Definition StripComments (raw : list byte) : list byte :=
  let s := final raw in
  if quoted s || esc s || comment s then
    (* unexpected state, so return raw bytes *)
    raw
  else buf s.

(** [[]byte(s)] for a string literal. *)
Definition B (s : string) : list byte := String.list_byte_of_string s.

(** Auxiliary definitions used to reason about a second pass of the
    stripper over its own output. *)

(** The quote flag after byte [b], and the condition under which the loop
    body reaches [buf.WriteByte(b)] from a state that is neither in a
    comment nor after a backslash. *)
Definition toggle (q : bool) (b : byte) : bool :=
  if Byte.eqb b bDQuote || Byte.eqb b bSQuote then negb q else q.

Definition written (q : bool) (b : byte) : bool :=
  negb (Byte.eqb b bBackslash && q) && negb (Byte.eqb b bSlash && negb (toggle q b)).

(** [plain q l = Some q']: started with quote flag [q], every byte of [l]
    is written, and the flag ends as [q']. *)
Fixpoint plain (q : bool) (l : list byte) : option bool :=
  match l with
  | [] => Some q
  | b :: t => if written q b then plain (toggle q b) t else None
  end.

(** ** Go strings *)

(** The line feed, as a string. *)
Definition nl : string := String "010"%char EmptyString.

(** [s[lo:hi]]; the slices taken by the tool are always in range. *)
Definition slice (s : string) (lo hi : nat) : string :=
  String.substring lo (hi - lo) s.

Module strings.

(** [strings.IndexByte(s, c)]. *)
Fixpoint IndexByte (s : string) (c : ascii) : option nat :=
  match s with
  | EmptyString => None
  | String x t => if Ascii.eqb x c then Some 0 else S <$> IndexByte t c
  end.

(** [strings.Count(s, string(c))]. *)
Fixpoint Count (s : string) (c : ascii) : nat :=
  match s with
  | EmptyString => 0
  | String x t => (if Ascii.eqb x c then 1 else 0) + Count t c
  end.

(** [strings.Split(s, string(sep))] for a separator of one byte, the only
    kind the tool uses: the pieces of [s] between the separators, so one
    piece more than there are separators. *)
Fixpoint Split (s : string) (sep : ascii) : list string :=
  match s with
  | EmptyString => [EmptyString]
  | String x t =>
    if Ascii.eqb x sep then EmptyString :: Split t sep
    else match Split t sep with
         | [] => [String x EmptyString]
         | piece :: pieces => String x piece :: pieces
         end
  end.

End strings.

Module filepath.

(** [os.IsPathSeparator] on a Unix system. *)
Definition IsPathSeparator (c : ascii) : bool := Ascii.eqb c "/"%char.

(** The loop of [filepath.Ext]: [n] is [i + 1] for the index [i] it is
    about to look at, going down from the last byte. *)
Fixpoint Ext_from (path : string) (n : nat) : string :=
  match n with
  | 0 => EmptyString
  | S i =>
    match String.get i path with
    | None => EmptyString
    | Some c =>
      if IsPathSeparator c then EmptyString
      else if Ascii.eqb c "."%char then slice path i (String.length path)
      else Ext_from path i
    end
  end.

Definition Ext (path : string) : string := Ext_from path (String.length path).

End filepath.

(** ** Processes: the error stream, the file system and [os.Exit] *)

(** A Go [error], by its message. *)
Definition error : Type := string.

Definition FileMode : Type := N.

(** [type listValue map[string]string]; the map is shared with the caller,
    so [Set] returns the updated map next to its error. *)
Abbreviation listValue := (gmap string string).

Record data (V : Type) : Type := Data {
  data_In : V;
  data_D : listValue
}.
Arguments Data {V} _ _.

(** The error of [cmd.Output()]: the command ran and exited with a failure
    status ([*exec.ExitError], which carries what it wrote to its error
    stream), or it could not be run. *)
Inductive cmdError : Type :=
| ExitError (Stderr : list byte)
| OtherError (msg : error).

(** What [flag.Parse()] does with the command line: it returns with the
    flags set ([-data], [-i], the map filled through the [-d] flags) and
    the arguments left over, or it ends the process itself with a status,
    after printing [output] on the error stream. *)
Inductive flagOutcome : Type :=
| FlagsParsed (dataArg : string) (gi : bool) (D : listValue) (paths : list string)
| FlagsExit (code : Z) (output : string).

(** The world outside the program, and the library calls whose work is
    not part of it.  Calls return Go's pair of a value and an error.
    Only [os.WriteFile] changes the world. *)
Record Env : Type := {
  World : Type;
  Template : Type;
  Value : Type;
  os_ReadFile : string → World → list byte * option error;
  os_Stat : string → World → FileMode * option error;
  os_WriteFile : string → list byte → FileMode → World → World * option error;
  exec_LookPath : string → World → string * option error;
  (* exec.Command(name) with the given standard input, then cmd.Output() *)
  exec_Output : string → list byte → World → list byte * option cmdError;
  (* template.New(name).Funcs(funcs).Parse(text) *)
  template_Parse : string → Template * option error;
  (* t.Execute(w, data): the bytes written to w, and the error *)
  template_Execute : Template → data Value → list byte * option error;
  json_Unmarshal : list byte → Value * option error;
  format_Source : list byte → list byte * option error;
  (* fmt.Sprintf(format) with no operand: what fmt.Fprintf(os.Stderr, format)
     prints for that format *)
  fmt_Sprintf : string → string;
  (* flag.Parse() on the command line, for a -d flag registered with
     flag.Var on a map with the given Set method and initial content *)
  flag_Parse : (listValue → string → listValue * option error) →
               listValue → list string → flagOutcome
}.

(** The state of the running process: the world, what was written to
    [os.Stderr], and the calls of [os.WriteFile] made so far, oldest
    first. *)
Record proc (W : Type) : Type := Proc {
  world : W;
  stderr : string;
  writes : list (string * list byte * FileMode)
}.
Arguments Proc {W} _ _ _.
Arguments world {W} _.
Arguments stderr {W} _.
Arguments writes {W} _.

(** A computation either returns or ends the process with a status. *)
Inductive outcome (W A : Type) : Type :=
| Returned (a : A) (p : proc W)
| Exited (code : Z) (p : proc W).
Arguments Returned {W A} _ _.
Arguments Exited {W A} _ _.

Definition M (W A : Type) : Type := proc W → outcome W A.

#[global] Instance M_ret {W} : MRet (M W) := λ A a p, Returned a p.

#[global] Instance M_bind {W} : MBind (M W) := λ A B f m p,
  match m p with
  | Returned a p' => f a p'
  | Exited code p' => Exited code p'
  end.

(** A call that reads the world. *)
Definition sys {W A} (f : W → A) : M W A := λ p, Returned (f (world p)) p.

(** [fmt.Fprintf(os.Stderr, ...)] of an already formatted message. *)
Definition eprint {W} (msg : string) : M W unit := λ p,
  Returned tt (Proc (world p) (stderr p +:+ msg) (writes p)).

(** [os.Exit(code)]. *)
Definition os_Exit {W} (code : Z) : M W unit := λ p, Exited code p.

(** [errExit(format, a...)], given the formatted message. *)
Definition errExit {W} (msg : string) : M W unit :=
  eprint msg ;; eprint nl ;; os_Exit 1.

(** The outcome of [errExit] with message [msg] in state [p]. *)
Definition exited {W} (p : proc W) (msg : string) : outcome W unit :=
  Exited 1 (Proc (world p) ((stderr p +:+ msg) +:+ nl) (writes p)).

(** The exit status of the process when its [main] has outcome [o]: a
    [main] that returns ends the process with status zero. *)
Definition exit_status {W A} (o : outcome W A) : Z :=
  match o with
  | Returned _ _ => 0
  | Exited code _ => code
  end.

(** [diagnosed p o]: from state [p], either the computation returned and
    wrote nothing to the error stream, or it ended the process with
    status 1 after writing one message and a newline to it. *)
Definition diagnosed {W A} (p : proc W) (o : outcome W A) : Prop :=
  match o with
  | Returned _ p' => stderr p' = stderr p
  | Exited code p' =>
    code = 1%Z ∧ ∃ msg, stderr p' = (stderr p +:+ msg) +:+ nl
  end.

(** [if err != nil { errExit(f(err)) }]. *)
Definition exitOnError {W} (err : option error) (f : error → string) : M W unit :=
  match err with
  | Some e => errExit (f e)
  | None => mret tt
  end.

(** ** The tool *)

Definition Ext : string := ".tmpl".

Record pathSpec : Type := PathSpec {
  in_ : string;
  out : string
}.

Definition IsGoFile (p : pathSpec) : bool :=
  String.eqb (filepath.Ext (out p)) ".go".

(** [parsePath].  After [errExit] the process is gone, so the slice
    [path[:len(path)-len(Ext)]] is only taken of a path with the
    extension. *)
Definition parsePath {W} (path : string) : M W (string * string) :=
  match strings.IndexByte path "="%char with
  | None =>
    (if negb (String.eqb (filepath.Ext path) Ext)
     then errExit ("template file '" +:+ path +:+ "' must have .tmpl extension")
     else mret tt) ;;
    mret (path, slice path 0 (String.length path - String.length Ext))
  | Some p =>
    mret (slice path 0 p, slice path (p + 1) (String.length path))
  end.

(** [func (l listValue) Set(v string) error]. *)
Definition listValue_Set (l : listValue) (v : string) : listValue * option error :=
  let nv := strings.Split v "="%char in
  if negb (length nv =? 2) then
    (l, Some ("expected NAME=VALUE, got " +:+ v))
  else
    (<[nv !!! 0 := nv !!! 1]> l, None).

Section Tool.
Context (E : Env).

Abbreviation W := (World E).

(** [errExit(err.Error())] passes the message of the error as the format,
    with no operand: what is printed is what [fmt] makes of that format. *)
Definition mustReadAll (path : string) : M W (list byte) :=
  '(data, err) ← sys (os_ReadFile E path);
  exitOnError err (fmt_Sprintf E) ;;
  mret data.

Definition readData (path : string) : M W (Value E) :=
  data ← mustReadAll path;
  let '(v, err) := json_Unmarshal E (StripComments data) in
  exitOnError err (λ e, "invalid JSON data: " +:+ e) ;;
  mret v.

(** Here too the message of the error is the format. *)
Definition fileMode (path : string) : M W FileMode :=
  '(mode, err) ← sys (os_Stat E path);
  exitOnError err (fmt_Sprintf E) ;;
  mret mode.

(** The type of the package variable [formatter]. *)
Definition Formatter : Type := list byte → W → list byte * option error.

Definition formatSource : Formatter := λ input w,
  let '(out, err) := exec_Output E "goimports" input w in
  match err with
  | Some (ExitError errout) =>
    ([], Some ("error running goimports: " +:+ String.string_of_list_byte errout))
  | Some (OtherError _) =>
    ([], Some ("error running goimports: " +:+ String.string_of_list_byte out))
  | None => (out, None)
  end.

(** [os.WriteFile(name, data, perm)] as a statement: its error is
    dropped. *)
Definition WriteFile_ (name : string) (content : list byte) (perm : FileMode) : M W unit :=
  λ p, Returned tt
         (Proc (os_WriteFile E name content perm (world p)).1 (stderr p)
               (writes p ++ [(name, content, perm)])).

(** The preamble written to the buffer of a Go file:
    [fmt.Fprintf(&buf, "// Code generated by %s. DO NOT EDIT.\n", spec.in)]
    and [fmt.Fprintln(&buf)]. *)
Definition preamble (spec : pathSpec) : list byte :=
  B ("// Code generated by " +:+ in_ spec +:+ ". DO NOT EDIT." +:+ nl) ++ B nl.

(** The body of the loop of [process], for one spec.  The package
    variable [formatter] is set once by [main] before [process] runs and
    is passed along here. *)
Definition process_spec (formatter : Formatter) (d : data (Value E)) (spec : pathSpec) : M W unit :=
  text ← mustReadAll (in_ spec);
  let '(t, err) := template_Parse E (String.string_of_list_byte text) in
  exitOnError err (λ e, "error processing template '" +:+ in_ spec +:+ "': " +:+ e) ;;
  let buf : list byte := [] in
  let buf := if IsGoFile spec then buf ++ preamble spec else buf in
  let '(rendered, err) := template_Execute E t d in
  let buf := buf ++ rendered in
  exitOnError err (λ e, "error executing template '" +:+ in_ spec +:+ "': " +:+ e) ;;
  let generated := buf in
  generated ←
    (if IsGoFile spec then
       '(generated, err) ← sys (formatter generated);
       exitOnError err (λ e, "error formatting '" +:+ in_ spec +:+ "': " +:+ e) ;;
       mret generated
     else mret generated);
  perm ← fileMode (in_ spec);
  WriteFile_ (out spec) generated perm.

Fixpoint process (formatter : Formatter) (d : data (Value E)) (specs : list pathSpec) : M W unit :=
  match specs with
  | [] => mret tt
  | spec :: specs' => process_spec formatter d spec ;; process formatter d specs'
  end.

(** The loop of [main] that resolves the path arguments. *)
Fixpoint parsePaths (paths : list string) : M W (list pathSpec) :=
  match paths with
  | [] => mret []
  | p :: paths' =>
    '(i, o) ← parsePath p;
    specs ← parsePaths paths';
    mret (PathSpec i o :: specs)
  end.

(** The statements of [main] behind [flag.Parse()], from the flags as it
    leaves them: [-data], [-i], the map filled by the [-d] flags, and the
    remaining arguments.  [main_from_args] below is the whole function. *)
Definition main (dataArg : string) (gi : bool) (D : listValue) (paths : list string) : M W unit :=
  (if String.eqb dataArg EmptyString then errExit "data option is required" else mret tt) ;;
  formatter ←
    (if gi then
       '(_, err) ← sys (exec_LookPath E "goimports");
       exitOnError err (λ e, "failed to find goimports: " +:+ e) ;;
       mret formatSource
     else mret (λ input _, format_Source E input));
  (if length paths =? 0 then errExit "no tmpl files specified" else mret tt) ;;
  specs ← parsePaths paths;
  v ← readData dataArg;
  process formatter (Data v D) specs.

(** [main] whole, from the arguments of the command line: the flags are
    declared ([flag.Var] registers the map [in.D], empty at first, whose
    [Set] the parser calls), [flag.Parse()] runs and may end the process
    itself, and the statements above follow. *)
Definition main_from_args (args : list string) : M W unit :=
  match flag_Parse E listValue_Set ∅ args with
  | FlagsExit code output => eprint output ;; os_Exit code
  | FlagsParsed dataArg gi D paths => main dataArg gi D paths
  end.

End Tool.

(** ** A small world, to run the tool on concrete inputs *)

Module Demo.

(** An in-memory file system, from paths to contents and permission
    bits.  No file can be opened under the empty name. *)
Abbreviation FS := (gmap string (list byte * FileMode)).

Definition ENOENT (path : string) : error :=
  "open " +:+ path +:+ ": no such file or directory".

Definition ReadFile (path : string) (fs : FS) : list byte * option error :=
  match fs !! path with
  | Some (content, _) => (content, None)
  | None => ([], Some (ENOENT path))
  end.

Definition Stat (path : string) (fs : FS) : FileMode * option error :=
  match fs !! path with
  | Some (_, perm) => (perm, None)
  | None => (0%N, Some (ENOENT path))
  end.

(** An existing file keeps its permission bits when it is overwritten. *)
Definition WriteFile (name : string) (content : list byte) (perm : FileMode)
    (fs : FS) : FS * option error :=
  if String.eqb name EmptyString then (fs, Some (ENOENT name))
  else
    let perm' := match fs !! name with Some (_, m) => m | None => perm end in
    (<[name := (content, perm')]> fs, None).

(** A template engine that knows no actions: a text with an opening
    action delimiter and no closing one does not parse, a text with an
    action parses and fails when executed, and any other text renders
    as itself. *)
Definition opens (text : string) : bool :=
  bool_decide (is_Some (String.index 0 "{{" text)).
Definition closes (text : string) : bool :=
  bool_decide (is_Some (String.index 0 "}}" text)).

Definition Parse (text : string) : string * option error :=
  if opens text && negb (closes text)
  then (EmptyString, Some "template: gen:1: unclosed action")
  else (text, None).

Definition Execute (t : string) (d : data (list byte)) : list byte * option error :=
  if opens t
  then ([], Some "template: gen:1:2: executing gen: can't evaluate field")
  else (B t, None).

(** A formatter that accepts the sources that start with a comment or a
    package clause, and returns them as they are. *)
Definition Source (src : list byte) : list byte * option error :=
  if bytes.HasPrefix src (B "//") || bytes.HasPrefix src (B "package")
  then (src, None)
  else ([], Some "1:1: expected 'package'").

(** No [goimports] is installed. *)
Definition LookPath (name : string) (fs : FS) : string * option error :=
  (EmptyString, Some ("exec: " +:+ name +:+ ": executable file not found in $PATH")).

Definition Output (name : string) (input : list byte) (fs : FS)
    : list byte * option cmdError :=
  ([], Some (OtherError ("exec: " +:+ name +:+ ": executable file not found in $PATH"))).

(** A [fmt] that knows the verbs of one letter: without operand each
    prints as missing, a doubled percent sign prints one, and a percent
    sign at the end has no verb. *)
Fixpoint Sprintf (format : string) : string :=
  match format with
  | EmptyString => EmptyString
  | String c rest =>
    if Ascii.eqb c "%" then
      match rest with
      | EmptyString => "%!(NOVERB)"
      | String v rest' =>
        if Ascii.eqb v "%" then String "%" (Sprintf rest')
        else "%!" +:+ String v EmptyString +:+ "(MISSING)" +:+ Sprintf rest'
      end
    else String c (Sprintf rest)
  end.

Definition usage : string :=
  "Usage of tmpl:" +:+ nl +:+ "  -d NAME=VALUE" +:+ nl +:+
  "  -data string" +:+ nl +:+ "  -i" +:+ nl.

(** A command line parser that knows the three flags in the form
    [-name value] ([-i] takes no value), stops at [--] or at the first
    argument that is no flag, and ends the process with status 2 and the
    usage on anything else. *)
Fixpoint flagParse (set : listValue → string → listValue * option error)
    (dataArg : string) (gi : bool) (D : listValue) (args : list string)
    : flagOutcome :=
  match args with
  | [] => FlagsParsed dataArg gi D []
  | a :: rest =>
    if String.eqb a "--" then FlagsParsed dataArg gi D rest
    else if String.eqb a "-i" then flagParse set dataArg true D rest
    else if String.eqb a "-data" then
      match rest with
      | [] => FlagsExit 2 ("flag needs an argument: -data" +:+ nl +:+ usage)
      | v :: rest' => flagParse set v gi D rest'
      end
    else if String.eqb a "-d" then
      match rest with
      | [] => FlagsExit 2 ("flag needs an argument: -d" +:+ nl +:+ usage)
      | v :: rest' =>
        match set D v with
        | (D', None) => flagParse set dataArg gi D' rest'
        | (_, Some e) =>
          FlagsExit 2 ("invalid value " +:+ v +:+ " for flag -d: " +:+ e +:+
                       nl +:+ usage)
        end
      end
    else if String.prefix "-" a && (1 <? String.length a) then
      FlagsExit 2 ("flag provided but not defined: " +:+ a +:+ nl +:+ usage)
    else FlagsParsed dataArg gi D args
  end.

Definition env : Env := {|
  World := FS;
  Template := string;
  Value := list byte;
  os_ReadFile := ReadFile;
  os_Stat := Stat;
  os_WriteFile := WriteFile;
  exec_LookPath := LookPath;
  exec_Output := Output;
  template_Parse := Parse;
  template_Execute := Execute;
  json_Unmarshal := λ b, (b, None);
  format_Source := Source;
  fmt_Sprintf := Sprintf;
  flag_Parse := λ set D args, flagParse set EmptyString false D args
|}.

(** A data file and three templates: one that renders, one that does
    not parse, and one that fails when executed. *)
Definition fs0 : FS :=
  <["data.json" := (B "{} // no data", 420%N)]>
  (<["a.tmpl" := (B "package a", 420%N)]>
  (<["bad.tmpl" := (B "{{", 420%N)]>
  (<["field.tmpl" := (B "{{.In.X}}", 420%N)]> ∅))).

Definition p0 : proc FS := Proc fs0 EmptyString [].

(** A template whose name holds a newline. *)
Definition fs1 : FS :=
  <["x" +:+ nl +:+ "package p //.tmpl" := (B "var X = 1", 420%N)]> ∅.

Definition p1 : proc FS := Proc fs1 EmptyString [].

End Demo.

(** ** Further definitions *)

(** [clean raw]: the loop over [raw] is left with the three flags off, so
    that [StripComments] returns its buffer. *)
Definition clean (raw : list byte) : bool :=
  negb (quoted (final raw) || esc (final raw) || comment (final raw)).

(** [offset k out s]: the scanner [s] of a scan of the bytes behind the
    first [k], as the scan of the whole input sees it: the index is moved
    by [k] and [out] was written before. *)
Definition offset (k : nat) (out : list byte) (s : scanner) : scanner :=
  Scanner (k + i s) (quoted s) (esc s) (comment s) (out ++ buf s).

(** The two quote bytes. *)
Definition isQuote (b : byte) : Prop := b = bDQuote ∨ b = bSQuote.

(** [strings.Join(elems, sep)]. *)
Definition strings_Join (elems : list string) (sep : string) : string :=
  String.concat sep elems.

(** [func (l listValue) String() string], for the order [entries] in
    which [range l] yields the entries of the map. *)
Definition listValue_String_in (entries : list (string * string)) : string :=
  strings_Join (map (λ kv, kv.1 +:+ "=" +:+ kv.2) entries) ", ".

(** The strings [l.String()] may return: Go does not fix the order in
    which a map is ranged over, only that every entry comes once. *)
Definition listValue_String (l : listValue) (s : string) : Prop :=
  ∃ entries, entries ≡ₚ map_to_list l ∧ s = listValue_String_in entries.

(** ** The version macros of arrow-glib/version.h.in *)

Section Version.
(** The numbers the build puts in place of [@VERSION_MAJOR@],
    [@VERSION_MINOR@] and [@VERSION_MICRO@]. *)
Variables VERSION_MAJOR VERSION_MINOR VERSION_MICRO : Z.

Definition GARROW_VERSION_MAJOR : Z := VERSION_MAJOR.
Definition GARROW_VERSION_MINOR : Z := VERSION_MINOR.
Definition GARROW_VERSION_MICRO : Z := VERSION_MICRO.

(** [GARROW_VERSION_CHECK(major, minor, micro)]; a C truth value is a
    [bool]. *)
Definition GARROW_VERSION_CHECK (major minor micro : Z) : bool :=
  (GARROW_VERSION_MAJOR >? major)%Z ||
  ((GARROW_VERSION_MAJOR =? major)%Z &&
   (GARROW_VERSION_MINOR >? minor)%Z) ||
  ((GARROW_VERSION_MAJOR =? major)%Z &&
   (GARROW_VERSION_MINOR =? minor)%Z &&
   (GARROW_VERSION_MICRO >=? micro)%Z).

End Version.

(** * Properties *)

(** ** Byte equality and the searches of package [bytes] *)

Lemma byte_eqb_decide (b c : byte) : Byte.eqb b c = bool_decide (b = c).
Proof.
  case_bool_decide as H.
  - by apply Byte.byte_dec_lb.
  - destruct (Byte.eqb b c) eqn:E; [|done].
    by apply Byte.byte_dec_bl in E.
Qed.

Lemma IndexByte_Some (l : list byte) c j :
  bytes.IndexByte l c = Some j →
  l !! j = Some c ∧ c ∉ take j l.
Proof.
  revert j. induction l as [|x l IH]; intros j; simpl; [done|].
  rewrite byte_eqb_decide. case_bool_decide as Hx.
  - intros [= <-]. subst. split; [done|]. simpl. apply not_elem_of_nil.
  - destruct (bytes.IndexByte l c) as [k|] eqn:E; simpl; [|done].
    intros [= <-]. destruct (IH k eq_refl) as [H1 H2].
    split; [done|]. simpl. rewrite not_elem_of_cons. split; [congruence|done].
Qed.

Lemma IndexByte_None (l : list byte) c :
  bytes.IndexByte l c = None ↔ c ∉ l.
Proof.
  induction l as [|x l IH]; simpl.
  - split; [intros _; apply not_elem_of_nil|done].
  - rewrite byte_eqb_decide, not_elem_of_cons. case_bool_decide as Hx.
    + split; [done|]. intros [? _]. congruence.
    + destruct (bytes.IndexByte l c) eqn:E; simpl.
      * split; [done|]. intros [_ H]. by apply IH in H.
      * split; [|done]. intros _. split; [congruence|]. by apply IH.
Qed.

Lemma HasPrefix_spec (s p : list byte) :
  bytes.HasPrefix s p = true ↔ ∃ t, s = p ++ t.
Proof.
  revert s. induction p as [|c p IH]; intros s; simpl.
  - split; [eauto|]. by destruct s.
  - destruct s as [|x s].
    + simpl. split; [done|]. by intros [t ?].
    + simpl. rewrite andb_true_iff, byte_eqb_decide, bool_decide_eq_true, IH.
      split.
      * intros [-> [t ->]]. eauto.
      * intros [t [= -> ->]]. eauto.
Qed.

Lemma Index_Some (s sep : list byte) j :
  bytes.Index s sep = Some j →
  ∃ t, drop j s = sep ++ t.
Proof.
  revert j. induction s as [|x s IH]; intros j.
  - cbn [bytes.Index]. destruct (bytes.HasPrefix [] sep) eqn:E; [|done].
    intros [= <-]. by apply HasPrefix_spec.
  - cbn [bytes.Index]. destruct (bytes.HasPrefix (x :: s) sep) eqn:E.
    + intros [= <-]. by apply HasPrefix_spec.
    + destruct (bytes.Index s sep) as [k|] eqn:Ek; simpl; [|done].
      intros [= <-]. simpl. by apply IH.
Qed.

Lemma HasPrefix_length (s p : list byte) :
  bytes.HasPrefix s p = true → length p ≤ length s.
Proof. intros [t ->]%HasPrefix_spec. rewrite length_app. lia. Qed.

Lemma Index_Some_length (s sep : list byte) j :
  bytes.Index s sep = Some j → j + length sep ≤ length s.
Proof.
  revert j. induction s as [|x s IH]; intros j; cbn [bytes.Index].
  - destruct (bytes.HasPrefix [] sep) eqn:E; [|done].
    intros [= <-]. by apply HasPrefix_length in E.
  - destruct (bytes.HasPrefix (x :: s) sep) eqn:E.
    + intros [= <-]. by apply HasPrefix_length in E.
    + destruct (bytes.Index s sep) as [k|] eqn:Ek; simpl; [|done].
      intros [= <-]. specialize (IH k eq_refl). lia.
Qed.

Lemma Index_None (s sep : list byte) :
  bytes.Index s sep = None → ∀ j t, drop j s ≠ sep ++ t.
Proof.
  induction s as [|x s IH]; cbn [bytes.Index].
  - destruct (bytes.HasPrefix [] sep) eqn:E; [done|]. intros _ j t Hj.
    rewrite drop_nil in Hj.
    assert (bytes.HasPrefix [] sep = true) by (apply HasPrefix_spec; eauto).
    congruence.
  - destruct (bytes.HasPrefix (x :: s) sep) eqn:E; [done|].
    destruct (bytes.Index s sep) eqn:Es; [done|]. intros _ [|j] t Hj.
    + assert (bytes.HasPrefix (x :: s) sep = true)
        by (apply HasPrefix_spec; eauto).
      congruence.
    + simpl in Hj. by eapply IH.
Qed.

(** ** The loop: progress, fuel and invariants *)

Lemma body_advances raw s : i s < length raw → i s < i (body raw s).
Proof.
  intros Hlt. unfold body.
  destruct (raw !! i s) as [b|] eqn:Hb; [|apply lookup_ge_None in Hb; lia].
  repeat case_match; simpl; lia.
Qed.

Lemma loop_stable n raw s : length raw ≤ i s → loop n raw s = s.
Proof.
  intros Hge. destruct n; [done|]. simpl.
  by rewrite (proj2 (Nat.ltb_ge _ _) Hge).
Qed.

Lemma loop_S_r n raw s :
  loop (S n) raw s =
  if i (loop n raw s) <? length raw then body raw (loop n raw s)
  else loop n raw s.
Proof.
  revert s. induction n as [|n IH]; intros s; [done|].
  change (loop (S (S n)) raw s)
    with (if i s <? length raw then loop (S n) raw (body raw s) else s).
  cbn [loop]. destruct (i s <? length raw) eqn:E; [apply IH|by rewrite E].
Qed.

Lemma loop_add n m raw s : loop (n + m) raw s = loop m raw (loop n raw s).
Proof.
  revert s. induction n as [|n IH]; intros s; [done|]. simpl.
  destruct (i s <? length raw) eqn:E; [apply IH|].
  apply Nat.ltb_ge in E. by rewrite !loop_stable.
Qed.

Lemma loop_progress n raw s :
  length raw ≤ i (loop n raw s) ∨ i s + n ≤ i (loop n raw s).
Proof.
  revert s. induction n as [|n IH]; intros s; simpl; [lia|].
  destruct (i s <? length raw) eqn:E.
  - apply Nat.ltb_lt in E. pose proof (body_advances raw s E).
    destruct (IH (body raw s)); lia.
  - apply Nat.ltb_ge in E. lia.
Qed.

(** The fuel [len(raw)] is enough: the loop is left because its guard
    [i < len(raw)] fails, not because the fuel ran out. *)
Lemma final_index raw : length raw ≤ i (final raw).
Proof. unfold final. destruct (loop_progress (length raw) raw start); simpl in *; lia. Qed.

(** More fuel changes nothing. *)
Lemma final_fuel raw n : length raw ≤ n → loop n raw start = final raw.
Proof.
  intros Hn. replace n with (length raw + (n - length raw)) by lia.
  rewrite loop_add. apply loop_stable, final_index.
Qed.

(** Running on from any state the loop passes through ends in [final]. *)
Lemma final_of_loop n raw : loop (length raw) raw (loop n raw start) = final raw.
Proof.
  rewrite <- loop_add. apply final_fuel. lia.
Qed.

Lemma loop_invariant (P : scanner → Prop) raw :
  (∀ s, P s → i s < length raw → P (body raw s)) →
  ∀ n s, P s → P (loop n raw s).
Proof.
  intros Hstep n. induction n as [|n IH]; intros s Hs; simpl; [done|].
  destruct (i s <? length raw) eqn:E; [|done].
  apply IH, Hstep; [done|]. by apply Nat.ltb_lt.
Qed.

(** No index leaves the range [0 .. len(raw) + 1]: the integers of the
    source never overflow. *)
Lemma loop_index_bound n raw : i (loop n raw start) ≤ S (length raw).
Proof.
  apply (loop_invariant (λ s, i s ≤ S (length raw))); [|simpl; lia].
  intros s _ Hlt. unfold body.
  destruct (raw !! i s) as [b|] eqn:Hb; [|lia].
  repeat case_match; simpl; try lia.
  - match goal with H : bytes.IndexByte _ _ = Some _ |- _ =>
      apply IndexByte_Some in H as [H%lookup_lt_Some _] end.
    rewrite length_drop in *. lia.
  - match goal with H : bytes.Index _ _ = Some _ |- _ =>
      apply Index_Some_length in H end.
    rewrite length_drop in *. simpl in *. lia.
Qed.

(** A pending escape and comment mode exclude each other. *)
Lemma loop_esc_comment n raw :
  let s := loop n raw start in esc s && comment s = false.
Proof.
  apply (loop_invariant (λ s, esc s && comment s = false)); [|done].
  intros s Hs _. unfold body.
  destruct (raw !! i s) as [b|]; [|done].
  destruct (comment s) eqn:Hc, (esc s) eqn:He; try done;
    repeat case_match; done.
Qed.

(** ** The output is made of input bytes, in order *)

Lemma sublist_take_le {A} (k l : list A) n m :
  n ≤ m → k `sublist_of` take n l → k `sublist_of` take m l.
Proof.
  intros Hle Hk. replace m with (n + (m - n)) by lia.
  rewrite <- take_take_drop. by apply sublist_inserts_r.
Qed.

Lemma buf_sublist n raw :
  buf (loop n raw start) `sublist_of` take (i (loop n raw start)) raw.
Proof.
  apply (loop_invariant (λ s, buf s `sublist_of` take (i s) raw));
    [|by simpl].
  intros s Hs Hlt. pose proof (body_advances raw s Hlt) as Hadv.
  revert Hadv. unfold body.
  destruct (raw !! i s) as [b|] eqn:Hb; [|done].
  repeat case_match; simpl; intros Hadv;
    try (by eapply sublist_take_le; [|exact Hs]; lia).
  all: rewrite (take_S_r _ _ _ Hb); by apply sublist_app.
Qed.

(** ** Stripping twice *)

Lemma plain_snoc q l q' b :
  plain q l = Some q' → written q' b = true →
  plain q (l ++ [b]) = Some (toggle q' b).
Proof.
  revert q. induction l as [|x l IH]; intros q; simpl.
  - intros [= ->] ->. done.
  - destruct (written q x); [|done]. apply IH.
Qed.

Lemma body_written raw s b :
  raw !! i s = Some b → comment s = false → esc s = false →
  written (quoted s) b = true →
  body raw s = Scanner (S (i s)) (toggle (quoted s) b) false false (buf s ++ [b]).
Proof.
  intros Hb Hc He. unfold written, body, toggle. rewrite Hb, Hc, He.
  intros [H1 H2]%andb_true_iff.
  apply negb_true_iff in H1, H2. by rewrite H1, H2.
Qed.

(** What one iteration can do to [quoted] and [buf]: leave both alone, or
    write the current byte. *)
Lemma body_buf raw s :
  i s < length raw →
  (quoted (body raw s) = quoted s ∧ buf (body raw s) = buf s) ∨
  (∃ b, raw !! i s = Some b ∧ written (quoted s) b = true ∧
        quoted (body raw s) = toggle (quoted s) b ∧
        buf (body raw s) = buf s ++ [b]).
Proof.
  intros Hlt. unfold body.
  destruct (raw !! i s) as [b|] eqn:Hb; [|by left].
  destruct (comment s) eqn:Hc.
  { left. repeat case_match; done. }
  destruct (esc s) eqn:He; [by left|].
  destruct (Byte.eqb b bBackslash && quoted s) eqn:H1; [by left|].
  fold (toggle (quoted s) b).
  destruct (Byte.eqb b bSlash && negb (toggle (quoted s) b)) eqn:H2.
  - left. simpl. split; [|done].
    apply andb_true_iff in H2 as [H2 _].
    rewrite byte_eqb_decide, bool_decide_eq_true in H2. by subst b.
  - right. exists b. simpl. unfold written. by rewrite H1, H2.
Qed.

Lemma buf_plain n raw :
  plain false (buf (loop n raw start)) = Some (quoted (loop n raw start)).
Proof.
  apply (loop_invariant (λ s, plain false (buf s) = Some (quoted s)));
    [|done].
  intros s Hs Hlt.
  destruct (body_buf raw s Hlt) as [[-> ->]|(b & _ & Hw & -> & ->)]; [done|].
  by apply plain_snoc.
Qed.

(** On a buffer all of whose bytes are written, the loop copies the rest
    of the buffer and ends in a state with no escape and no comment. *)
Lemma loop_plain l n k q out q' :
  plain q (drop k l) = Some q' → length l ≤ k + n → k ≤ length l →
  loop n l (Scanner k q false false out) =
  Scanner (length l) q' false false (out ++ drop k l).
Proof.
  revert k q out. induction n as [|n IH]; intros k q out Hp Hn Hk.
  - assert (k = length l) as -> by lia. rewrite drop_all in *.
    simpl in *. rewrite app_nil_r. congruence.
  - simpl. destruct (k <? length l) eqn:E.
    + apply Nat.ltb_lt in E.
      destruct (lookup_lt_is_Some_2 l k E) as [b Hb].
      rewrite (drop_S _ _ _ Hb) in *. simpl in Hp.
      destruct (written q b) eqn:Hw; [|done].
      rewrite (body_written l (Scanner k q false false out) b) by done.
      simpl. rewrite (IH (S k) _ _ Hp) by lia.
      by rewrite <- app_assoc.
    + apply Nat.ltb_ge in E. assert (k = length l) as -> by lia.
      rewrite drop_all in *. simpl in *. rewrite app_nil_r. congruence.
Qed.

(** ** Strings: slices, searches and splits *)

Lemma app_String c (a b : string) : String c a +:+ b = String c (a +:+ b).
Proof. done. Qed.

Lemma app_Empty (b : string) : EmptyString +:+ b = b.
Proof. done. Qed.

Lemma app_Empty_r (a : string) : a +:+ EmptyString = a.
Proof. induction a as [|c a IH]; [done|]. by rewrite app_String, IH. Qed.

Lemma length_app_string (a b : string) :
  String.length (a +:+ b) = String.length a + String.length b.
Proof. induction a as [|c a IH]; [done|]. rewrite app_String. simpl. by rewrite IH. Qed.

Lemma get_app_r (a b : string) n :
  String.get (String.length a + n) (a +:+ b) = String.get n b.
Proof. induction a as [|c a IH]; [done|]. by rewrite app_String. Qed.

Lemma substring_0_app (a b : string) :
  String.substring 0 (String.length a) (a +:+ b) = a.
Proof. induction a as [|c a IH]; [by destruct b|]. rewrite app_String. simpl. by rewrite IH. Qed.

Lemma substring_app_r (a b : string) n m :
  String.substring (String.length a + n) m (a +:+ b) = String.substring n m b.
Proof. induction a as [|c a IH]; [done|]. by rewrite app_String. Qed.

Lemma substring_0_all (s : string) :
  String.substring 0 (String.length s) s = s.
Proof. induction s as [|c s IH]; [done|]. simpl. by rewrite IH. Qed.

Lemma substring_split (s : string) n :
  s = String.substring 0 n s +:+ String.substring n (String.length s - n) s.
Proof.
  revert n. induction s as [|c s IH]; intros n.
  - by destruct n.
  - destruct n as [|n].
    + rewrite Nat.sub_0_r, substring_0_all. reflexivity.
    + change (String c s = String c (String.substring 0 n s +:+
        String.substring n (String.length s - n) s)).
      by rewrite <- IH.
Qed.

Lemma slice_app_l (a b : string) : slice (a +:+ b) 0 (String.length a) = a.
Proof. unfold slice. rewrite Nat.sub_0_r. apply substring_0_app. Qed.

Lemma slice_app_r (a b : string) :
  slice (a +:+ b) (String.length a) (String.length (a +:+ b)) = b.
Proof.
  unfold slice. rewrite length_app_string.
  replace (String.length a + String.length b - String.length a)
    with (String.length b) by lia.
  rewrite <- (Nat.add_0_r (String.length a)) at 1.
  rewrite substring_app_r. apply substring_0_all.
Qed.

Lemma strings_IndexByte_app (a b : string) c :
  strings.IndexByte a c = None →
  strings.IndexByte (a +:+ String c b) c = Some (String.length a).
Proof.
  induction a as [|x a IH]; simpl.
  - intros _. rewrite ?app_Empty. simpl. by rewrite Ascii.eqb_refl.
  - rewrite ?app_String. simpl. destruct (Ascii.eqb x c); [done|].
    destruct (strings.IndexByte a c) eqn:Ha; [done|]. intros _.
    by rewrite IH.
Qed.

Lemma strings_IndexByte_Some (s : string) c k :
  strings.IndexByte s c = Some k →
  ∃ a b, s = a +:+ String c b ∧ String.length a = k ∧
         strings.IndexByte a c = None.
Proof.
  revert k. induction s as [|x s IH]; intros k; simpl; [done|].
  destruct (Ascii.eqb_spec x c) as [->|Hne].
  - intros [= <-]. by exists EmptyString, s.
  - destruct (strings.IndexByte s c) as [j|] eqn:Hs; simpl; [|done].
    intros [= <-]. destruct (IH j eq_refl) as (a & b & -> & <- & Ha).
    exists (String x a), b. rewrite ?app_String. simpl.
    split_and!; [done..|].
    destruct (Ascii.eqb_spec x c); [done|]. by rewrite Ha.
Qed.

Lemma strings_Count_0 (s : string) c :
  strings.Count s c = 0 ↔ strings.IndexByte s c = None.
Proof.
  induction s as [|x s IH]; simpl; [done|].
  destruct (Ascii.eqb x c); simpl; [done|].
  rewrite IH. by destruct (strings.IndexByte s c).
Qed.

Lemma strings_Count_app (a b : string) c :
  strings.Count (a +:+ b) c = strings.Count a c + strings.Count b c.
Proof.
  induction a as [|x a IH]; [done|]. rewrite ?app_String. simpl.
  rewrite IH. lia.
Qed.

Lemma Split_length (s : string) c :
  length (strings.Split s c) = S (strings.Count s c).
Proof.
  induction s as [|x s IH]; simpl; [done|].
  destruct (Ascii.eqb x c); simpl; [by rewrite IH|].
  destruct (strings.Split s c); simpl in *; lia.
Qed.

Lemma Split_no_sep (s : string) c :
  strings.IndexByte s c = None → strings.Split s c = [s].
Proof.
  induction s as [|x s IH]; simpl; [done|].
  destruct (Ascii.eqb x c); [done|].
  destruct (strings.IndexByte s c); [done|]. intros _. by rewrite IH.
Qed.

Lemma Split_app (a b : string) c :
  strings.IndexByte a c = None →
  strings.Split (a +:+ String c b) c = a :: strings.Split b c.
Proof.
  induction a as [|x a IH]; simpl.
  - intros _. rewrite ?app_Empty. simpl. by rewrite Ascii.eqb_refl.
  - rewrite ?app_String. simpl. destruct (Ascii.eqb x c); [done|].
    destruct (strings.IndexByte a c); [done|]. intros _. by rewrite IH.
Qed.

(** Joining the pieces with the separator gives the string back. *)
Lemma Split_concat (s : string) c :
  String.concat (String c EmptyString) (strings.Split s c) = s.
Proof.
  induction s as [|x s IH]; [done|].
  pose proof (Split_length s c) as Hl.
  cbn [strings.Split]. destruct (strings.Split s c) as [|piece pieces]; [done|].
  destruct (Ascii.eqb_spec x c) as [->|Hne].
  - by rewrite <- IH.
  - rewrite <- IH. by destruct pieces.
Qed.

Lemma app_snoc_String (a b : string) c :
  a +:+ String c b = (a +:+ String c EmptyString) +:+ b.
Proof. induction a as [|x a IH]; [done|]. by rewrite !app_String, IH. Qed.

Lemma slice_after_sep (a b : string) c :
  slice (a +:+ String c b) (String.length a + 1)
        (String.length (a +:+ String c b)) = b.
Proof.
  rewrite app_snoc_String.
  replace (String.length a + 1) with (String.length (a +:+ String c EmptyString))
    by (rewrite length_app_string; simpl; lia).
  apply slice_app_r.
Qed.

(** ** [filepath.Ext] and the template extension *)

Lemma Ext_of_tmpl (stem : string) : filepath.Ext (stem +:+ Ext) = Ext.
Proof.
  unfold filepath.Ext, Ext. rewrite length_app_string.
  change (String.length ".tmpl") with 5.
  replace (String.length stem + 5) with (S (String.length stem + 4)) by lia.
  cbn [filepath.Ext_from]. rewrite get_app_r. cbn.
  replace (String.length stem + 4) with (S (String.length stem + 3)) by lia.
  cbn [filepath.Ext_from]. rewrite get_app_r. cbn.
  replace (String.length stem + 3) with (S (String.length stem + 2)) by lia.
  cbn [filepath.Ext_from]. rewrite get_app_r. cbn.
  replace (String.length stem + 2) with (S (String.length stem + 1)) by lia.
  cbn [filepath.Ext_from]. rewrite get_app_r. cbn.
  replace (String.length stem + 1) with (S (String.length stem + 0)) by lia.
  cbn [filepath.Ext_from]. rewrite get_app_r. cbn.
  rewrite Nat.add_0_r. apply slice_app_r.
Qed.

Lemma Ext_from_slice (path : string) n :
  filepath.Ext_from path n = EmptyString ∨
  ∃ k, filepath.Ext_from path n = slice path k (String.length path).
Proof.
  induction n as [|n IH]; [by left|]. cbn [filepath.Ext_from].
  destruct (String.get n path) as [c|]; [|by left].
  destruct (filepath.IsPathSeparator c); [by left|].
  destruct (Ascii.eqb c "."); [right; by exists n|done].
Qed.

(** [filepath.Ext(path) == Ext] says exactly that [path] ends in [.tmpl]. *)
Lemma Ext_is_tmpl (path : string) :
  filepath.Ext path = Ext ↔ ∃ stem, path = stem +:+ Ext.
Proof.
  split.
  - intros HE. destruct (Ext_from_slice path (String.length path)) as [H0|[k Hk]];
      fold (filepath.Ext path) in *.
    + by rewrite HE in H0.
    + exists (String.substring 0 k path). rewrite <- HE, Hk.
      apply substring_split.
  - intros [stem ->]. apply Ext_of_tmpl.
Qed.

(** ** Path arguments *)

(** C5. [parsePath] splits its argument at the first [=].  Without one,
    an argument that ends in [.tmpl] is the input path and the output path
    is the argument without that suffix, and any other argument ends the
    process with status 1 and a diagnostic; with one, what precedes the
    first [=] is the input path and what follows it is the output path,
    whatever their extensions.  So [foo.tmpl] gives [(foo.tmpl, foo)],
    [foo.tmpl=bar.go] gives [(foo.tmpl, bar.go)] and [foo.txt] fails. *)
Theorem parsePath_resolution {W} (p : proc W) :
  (∀ path,
     match strings.IndexByte path "=" with
     | None =>
       (∀ stem, path = stem +:+ Ext →
                parsePath path p = Returned (path, stem) p) ∧
       ((∀ stem, path ≠ stem +:+ Ext) →
        parsePath path p =
        Exited 1 (Proc (world p)
                       ((stderr p +:+ "template file '" +:+ path +:+
                         "' must have .tmpl extension") +:+ nl)
                       (writes p)))
     | Some k =>
       ∃ a b, path = a +:+ String "=" b ∧ String.length a = k ∧
              strings.IndexByte a "=" = None ∧
              parsePath path p = Returned (a, b) p
     end) ∧
  parsePath "foo.tmpl" p = Returned ("foo.tmpl", "foo") p ∧
  parsePath "foo.tmpl=bar.go" p = Returned ("foo.tmpl", "bar.go") p ∧
  parsePath "foo.txt" p =
  Exited 1 (Proc (world p)
                 ((stderr p +:+ "template file 'foo.txt' must have .tmpl extension")
                  +:+ nl)
                 (writes p)).
Proof.
  split; [|by repeat split].
  intros path. unfold parsePath.
  destruct (strings.IndexByte path "=") as [k|] eqn:Hk.
  - destruct (strings_IndexByte_Some _ _ _ Hk) as (a & b & -> & <- & Ha).
    exists a, b. split_and!; [done..|].
    by rewrite slice_app_l, slice_after_sep.
  - split.
    + intros stem ->. rewrite Ext_of_tmpl. cbn.
      rewrite length_app_string. change (String.length Ext) with 5.
      replace (String.length stem + 5 - 5) with (String.length stem) by lia.
      by rewrite slice_app_l.
    + intros Hno. destruct (String.eqb_spec (filepath.Ext path) Ext) as [HE|HE].
      * apply Ext_is_tmpl in HE as [stem ->]. by destruct (Hno stem).
      * done.
Qed.

Lemma parsePath_resolution_witness :
  parsePath "gen.go.tmpl" (Proc tt EmptyString []) =
  Returned ("gen.go.tmpl", "gen.go") (Proc tt EmptyString []).
Proof.
  pose proof (proj1 (parsePath_resolution (Proc tt EmptyString [])) "gen.go.tmpl") as H.
  cbn in H. apply (proj1 H "gen.go"). reflexivity.
Defined.

(** ** The [-d NAME=VALUE] flag *)

(** C4, as the code has it.  [Set] succeeds exactly on the tokens with one
    [=], and then maps what precedes it to what follows it; a token with
    no [=], or with two or more, is refused with the error
    [expected NAME=VALUE, got ...] and leaves the map alone.  So [A=B]
    gives the map from [A] to [B], and [A] fails. *)
Theorem listValue_Set_spec (l : listValue) (v : string) :
  match strings.Count v "=" with
  | 1 =>
    ∃ name value, v = name +:+ String "=" value ∧
                  strings.IndexByte name "=" = None ∧
                  strings.IndexByte value "=" = None ∧
                  listValue_Set l v = (<[name := value]> l, None)
  | _ => listValue_Set l v = (l, Some ("expected NAME=VALUE, got " +:+ v))
  end ∧
  listValue_Set ∅ "A=B" = ({["A" := "B"]}, None) ∧
  listValue_Set ∅ "A" = (∅, Some "expected NAME=VALUE, got A").
Proof.
  split; [|split; [|done]].
  - unfold listValue_Set. rewrite Split_length.
    destruct (strings.Count v "=") as [|[|n]] eqn:Hc; [done| |done].
    destruct (strings.IndexByte v "=") as [k|] eqn:Hk;
      [|apply strings_Count_0 in Hk; lia].
    destruct (strings_IndexByte_Some _ _ _ Hk) as (a & b & -> & _ & Ha).
    exists a, b. rewrite strings_Count_app in Hc. simpl in Hc.
    assert (strings.IndexByte b "=" = None) as Hb
      by (apply strings_Count_0; lia).
    split_and!; [done..|].
    rewrite (Split_app a b "=" Ha), (Split_no_sep b "=" Hb). done.
  - unfold listValue_Set. cbn. by rewrite insert_empty.
Qed.

(** C4, as the claim has it, fails: [A=B=C] contains a [=] and is refused
    all the same. *)
Lemma listValue_Set_two_separators :
  ¬ ((listValue_Set ∅ "A=B=C").2 ≠ None ↔ strings.IndexByte "A=B=C" "=" = None).
Proof. intros [H _]. by specialize (H ltac:(done)). Qed.

(** ** The generation loop *)


Lemma IndexByte_app_cons (l k : list byte) c :
  c ∉ l → bytes.IndexByte (l ++ c :: k) c = Some (length l).
Proof.
  induction l as [|x l IH]; simpl.
  - intros _. by rewrite byte_eqb_decide, bool_decide_eq_true_2.
  - intros [Hx Hl]%not_elem_of_cons.
    rewrite byte_eqb_decide, bool_decide_eq_false_2 by done.
    by rewrite IH.
Qed.

Ltac run_M :=
  unfold mustReadAll, fileMode, sys, WriteFile_, exitOnError, errExit,
    eprint, os_Exit, mbind, M_bind, mret, M_ret;
  cbn -[preamble String.append].

Section Pipeline.
Context (E : Env).
Implicit Types (formatter : Formatter E) (d : data (Value E))
  (spec : pathSpec) (p : proc (World E)).

(** A spec for which everything up to the formatter succeeds. *)
Lemma process_spec_rendered formatter d spec p text t rendered :
  os_ReadFile E (in_ spec) (world p) = (text, None) →
  template_Parse E (String.string_of_list_byte text) = (t, None) →
  template_Execute E t d = (rendered, None) →
  process_spec E formatter d spec p =
  ((generated ←
      (if IsGoFile spec then
         '(generated, err) ← sys (formatter (preamble spec ++ rendered));
         exitOnError err (λ e, "error formatting '" +:+ in_ spec +:+ "': " +:+ e) ;;
         mret generated
       else mret rendered);
    perm ← fileMode E (in_ spec);
    WriteFile_ E (out spec) generated perm) : M (World E) unit) p.
Proof.
  intros Hr Hp Hx. unfold process_spec. run_M. rewrite Hr, Hp, Hx. run_M.
  by destruct (IsGoFile spec).
Qed.


(** The four failures of a spec, with the diagnostic of each. *)
Lemma process_spec_read_fails formatter d spec p text e :
  os_ReadFile E (in_ spec) (world p) = (text, Some e) →
  process_spec E formatter d spec p = exited p (fmt_Sprintf E e).
Proof. intros Hr. unfold process_spec. run_M. by rewrite Hr. Qed.

Lemma process_spec_parse_fails formatter d spec p text t e :
  os_ReadFile E (in_ spec) (world p) = (text, None) →
  template_Parse E (String.string_of_list_byte text) = (t, Some e) →
  process_spec E formatter d spec p =
  exited p ("error processing template '" +:+ in_ spec +:+ "': " +:+ e).
Proof. intros Hr Hp. unfold process_spec. run_M. by rewrite Hr, Hp. Qed.

Lemma process_spec_execute_fails formatter d spec p text t rendered e :
  os_ReadFile E (in_ spec) (world p) = (text, None) →
  template_Parse E (String.string_of_list_byte text) = (t, None) →
  template_Execute E t d = (rendered, Some e) →
  process_spec E formatter d spec p =
  exited p ("error executing template '" +:+ in_ spec +:+ "': " +:+ e).
Proof.
  intros Hr Hp Hx. unfold process_spec. run_M. by rewrite Hr, Hp, Hx.
Qed.

Lemma process_spec_format_fails formatter d spec p text t rendered generated e :
  os_ReadFile E (in_ spec) (world p) = (text, None) →
  template_Parse E (String.string_of_list_byte text) = (t, None) →
  template_Execute E t d = (rendered, None) →
  IsGoFile spec = true →
  formatter (preamble spec ++ rendered) (world p) = (generated, Some e) →
  process_spec E formatter d spec p =
  exited p ("error formatting '" +:+ in_ spec +:+ "': " +:+ e).
Proof.
  intros Hr Hp Hx Hgo Hf.
  rewrite (process_spec_rendered _ _ _ _ _ _ _ Hr Hp Hx). run_M.
  by rewrite Hgo, Hf.
Qed.

Lemma process_app formatter d pre post p :
  process E formatter d (pre ++ post) p =
  match process E formatter d pre p with
  | Returned _ p1 => process E formatter d post p1
  | Exited code p1 => Exited code p1
  end.
Proof.
  revert p. induction pre as [|spec pre IH]; intros p; [done|].
  simpl. unfold mbind, M_bind.
  destruct (process_spec E formatter d spec p) as [[] p'|code p']; [|done].
  apply IH.
Qed.

End Pipeline.

(** ** The comment stripper *)

(** In comment mode the scanner is outside any quoted string and has no
    pending escape. *)
Lemma loop_comment_flags n raw :
  comment (loop n raw start) = true →
  quoted (loop n raw start) = false ∧ esc (loop n raw start) = false.
Proof.
  apply (loop_invariant
           (λ s, comment s = true → quoted s = false ∧ esc s = false));
    [|done].
  intros s Hs _. unfold body.
  destruct (raw !! i s) as [b|]; [|done].
  destruct (comment s) eqn:Hc.
  { destruct (Hs eq_refl) as [-> ->]. repeat case_match; done. }
  destruct (esc s); [done|].
  destruct (Byte.eqb b bBackslash && quoted s); [done|].
  fold (toggle (quoted s) b).
  destruct (Byte.eqb b bSlash && negb (toggle (quoted s) b)) eqn:H2; [|done].
  simpl. intros _. apply andb_true_iff in H2 as [_ H2].
  by apply negb_true_iff in H2.
Qed.

(** The state after one more iteration, when the loop is not yet left. *)
Lemma loop_next n raw b :
  raw !! i (loop n raw start) = Some b →
  loop (S n) raw start = body raw (loop n raw start).
Proof.
  intros Hb%lookup_lt_Some. rewrite loop_S_r.
  by rewrite (proj2 (Nat.ltb_lt _ _) Hb).
Qed.

(** A state the loop passes through and in which its guard fails is the
    state in which the loop is left. *)
Lemma final_reached n raw :
  length raw ≤ i (loop n raw start) → final raw = loop n raw start.
Proof.
  intros Hge. rewrite <- (final_of_loop n). by rewrite loop_stable.
Qed.

(** C7. The output of [StripComments] is a subsequence of its input:
    every byte of the output is a byte of the input, in the same order.
    This holds for every input, balanced or not. *)
Theorem StripComments_sublist (raw : list byte) :
  StripComments raw `sublist_of` raw.
Proof.
  unfold StripComments.
  destruct (quoted (final raw) || esc (final raw) || comment (final raw));
    [done|].
  etrans; [apply buf_sublist|apply sublist_take].
Qed.

(** C6. [StripComments] is idempotent. *)
Theorem StripComments_idempotent (raw : list byte) :
  StripComments (StripComments raw) = StripComments raw.
Proof.
  unfold StripComments at 2 3.
  destruct (quoted (final raw) || esc (final raw) || comment (final raw))
    eqn:Hflags; [by unfold StripComments; rewrite Hflags|].
  apply orb_false_iff in Hflags as [[Hq He]%orb_false_iff Hc].
  pose proof (buf_plain (length raw) raw) as Hp. fold (final raw) in Hp.
  rewrite Hq in Hp.
  assert (final (buf (final raw)) =
          Scanner (length (buf (final raw))) false false false (buf (final raw)))
    as Hfinal.
  { unfold final at 1. unfold start.
    by rewrite (loop_plain _ _ 0 false [] false); [| |lia..]. }
  unfold StripComments. by rewrite Hfinal.
Qed.

(** A buffer on which [plain] succeeds with the quote flag closed is
    returned as it is. *)
Lemma StripComments_plain (l : list byte) :
  plain false l = Some false → StripComments l = l.
Proof.
  intros Hp. unfold StripComments, final, start.
  by rewrite (loop_plain l (length l) 0 false [] false); [| |lia..].
Qed.

Lemma plain_app q l1 l2 :
  plain q (l1 ++ l2) = plain q l1 ≫= λ q', plain q' l2.
Proof.
  revert q. induction l1 as [|b l1 IH]; intros q; simpl; [done|].
  destruct (written q b); [apply IH|done].
Qed.

Lemma plain_inside_quotes (l : list byte) :
  Forall (λ b, b ≠ bDQuote ∧ b ≠ bSQuote ∧ b ≠ bBackslash) l →
  plain true l = Some true.
Proof.
  induction 1 as [|b l (H1 & H2 & H3) _ IH]; simpl; [done|].
  unfold written, toggle.
  rewrite !byte_eqb_decide.
  rewrite (bool_decide_eq_false_2 _ H1), (bool_decide_eq_false_2 _ H2),
    (bool_decide_eq_false_2 _ H3).
  simpl. destruct (bool_decide (b = bSlash)); simpl; exact IH.
Qed.

(** What the stripper does keep of a quoted string: one without quote
    bytes and backslashes inside is copied as it is, slashes and stars
    included. *)
Lemma StripComments_quoted (l : list byte) :
  Forall (λ b, b ≠ bDQuote ∧ b ≠ bSQuote ∧ b ≠ bBackslash) l →
  StripComments ([bDQuote] ++ l ++ [bDQuote]) = [bDQuote] ++ l ++ [bDQuote].
Proof.
  intros Hl. apply StripComments_plain. simpl.
  change (plain true (l ++ [bDQuote]) = Some false).
  by rewrite plain_app, (plain_inside_quotes l Hl).
Qed.

(** C1, at the input [dquote a backslash dquote b dquote], that is the
    string literal whose content is a, an escaped quote, b.  The escaped
    quote is not taken for the end of the string, but neither the
    backslash nor the byte after it reaches the output: the two bytes
    between a and b are missing from the result.  A quoted string with two
    slashes and no backslash, such as the one holding
    [http://example.com], comes out as it went in. *)
Theorem StripComments_drops_escape :
  let raw := [bDQuote] ++ B "a" ++ [bBackslash; bDQuote] ++ B "b" ++ [bDQuote] in
  let url := [bDQuote] ++ B "http://example.com" ++ [bDQuote] in
  StripComments raw = [bDQuote] ++ B "ab" ++ [bDQuote] ∧
  StripComments raw ≠ raw ∧
  quoted (loop 4 raw start) = true ∧
  StripComments url = url.
Proof. by vm_compute. Qed.

(** C2, as the claim has it, fails for a line comment that the end of the
    input closes: after [1/] the scanner is in comment mode at a second
    slash with no newline behind it, and the result is [1], not the
    input. *)
Lemma StripComments_line_comment_at_end :
  let raw := B "1//x" in
  let s := loop 2 raw start in
  comment s = true ∧ raw !! i s = Some bSlash ∧
  bytes.IndexByte (drop (S (i s)) raw) bNewline = None ∧
  StripComments raw = B "1" ∧ StripComments raw ≠ raw.
Proof. by vm_compute. Qed.

(** C2, as the code has it.  If the loop is left inside a quoted string,
    after a backslash or in comment mode, the input is returned as it is.
    A block comment without its closing star-slash leaves the loop in
    comment mode, so the input is returned as it is.  A line comment
    without a newline behind it runs to the end of the input and leaves
    comment mode: the result is what was written before the comment. *)
Theorem StripComments_fallback (raw : list byte) (n : nat) :
  let s := loop n raw start in
  (quoted (final raw) || esc (final raw) || comment (final raw) = true →
   StripComments raw = raw) ∧
  (comment s = true → raw !! i s = Some bStar →
   bytes.Index (drop (S (i s)) raw) [bStar; bSlash] = None →
   StripComments raw = raw) ∧
  (comment s = true → raw !! i s = Some bSlash →
   bytes.IndexByte (drop (S (i s)) raw) bNewline = None →
   StripComments raw = buf s).
Proof.
  intros s. split_and!.
  - intros H. unfold StripComments. by rewrite H.
  - intros Hc Hb Hj.
    assert (loop (S n) raw start = Scanner (S (length raw)) (quoted s) (esc s) true (buf s))
      as Hnext.
    { rewrite (loop_next _ _ _ Hb). fold s. unfold body. by rewrite Hb, Hc, Hj. }
    assert (final raw = loop (S n) raw start) as Hfinal
      by (apply final_reached; rewrite Hnext; simpl; lia).
    unfold StripComments. rewrite Hfinal, Hnext. simpl.
    by rewrite !orb_true_r.
  - intros Hc Hb Hj. destruct (loop_comment_flags n raw Hc) as [Hq He].
    fold s in Hq, He.
    assert (loop (S n) raw start = Scanner (S (length raw)) false false false (buf s))
      as Hnext.
    { rewrite (loop_next _ _ _ Hb). fold s. unfold body.
      by rewrite Hb, Hc, Hj, Hq, He. }
    assert (final raw = loop (S n) raw start) as Hfinal
      by (apply final_reached; rewrite Hnext; simpl; lia).
    unfold StripComments. by rewrite Hfinal, Hnext.
Qed.

Lemma StripComments_fallback_witness :
  StripComments (B "{} /* oops") = B "{} /* oops" ∧
  StripComments (B "{} // done") = B "{} ".
Proof.
  split.
  - apply (proj1 (proj2 (StripComments_fallback (B "{} /* oops") 4)));
      reflexivity.
  - apply (proj2 (proj2 (StripComments_fallback (B "{} // done") 4)));
      reflexivity.
Defined.

(** In comment mode, a run of bytes that are neither a slash nor a star
    is skipped: nothing is written and the mode stays. *)
Lemma loop_skip_in_comment raw n m :
  let s := loop n raw start in
  comment s = true →
  Forall (λ b, b ≠ bSlash ∧ b ≠ bStar) (take m (drop (i s) raw)) →
  i s + m ≤ length raw →
  loop (n + m) raw start = Scanner (i s + m) false false true (buf s).
Proof.
  intros s Hc. destruct (loop_comment_flags n raw Hc) as [Hq He].
  fold s in Hq, He.
  induction m as [|m IH]; intros Hall Hlen.
  - rewrite !Nat.add_0_r. fold s. destruct s; simpl in *; congruence.
  - assert (i s + m < length raw) as Hlt by lia.
    destruct (lookup_lt_is_Some_2 raw (i s + m) Hlt) as [b Hb].
    assert (b ≠ bSlash ∧ b ≠ bStar) as [Hb1 Hb2].
    { rewrite Forall_lookup in Hall. apply (Hall m).
      rewrite lookup_take_lt by lia. by rewrite lookup_drop. }
    assert (loop (n + m) raw start = Scanner (i s + m) false false true (buf s))
      as Hm.
    { apply IH; [|lia]. rewrite Forall_lookup in *. intros k x Hk.
      apply (Hall k). apply lookup_take_Some in Hk as [Hk ?].
      rewrite lookup_take_lt by lia. done. }
    replace (n + S m) with (S (n + m)) by lia.
    rewrite (loop_next (n + m) raw b) by (by rewrite Hm).
    rewrite Hm. unfold body. simpl. rewrite Hb.
    rewrite !byte_eqb_decide, !bool_decide_eq_false_2 by done.
    f_equal. lia.
Qed.

(** C10. A slash outside a quoted string puts the scanner in comment mode
    and is not written.  The bytes after it that are neither a slash nor
    a star are skipped, with nothing written and the mode kept.  A slash
    met later is handled as the second slash of a line comment and a star
    as the star of a block comment.  If the input ends in that mode, the
    input is returned as it is: [a/b] comes back as [a/b]. *)
Theorem StripComments_lone_slash (raw : list byte) (n m : nat) :
  let s := loop n raw start in
  comment s = false → esc s = false → quoted s = false →
  raw !! i s = Some bSlash →
  Forall (λ b, b ≠ bSlash ∧ b ≠ bStar) (take m (drop (S (i s)) raw)) →
  S (i s) + m ≤ length raw →
  let s' := loop (S n + m) raw start in
  s' = Scanner (S (i s) + m) false false true (buf s) ∧
  (S (i s) + m = length raw → StripComments raw = raw) ∧
  (raw !! i s' = Some bSlash →
   loop (S (S n + m)) raw start =
   match bytes.IndexByte (drop (S (i s')) raw) bNewline with
   | None => Scanner (S (length raw)) false false false (buf s)
   | Some j => Scanner (S (i s' + j)) false false false (buf s)
   end) ∧
  (raw !! i s' = Some bStar →
   loop (S (S n + m)) raw start =
   match bytes.Index (drop (S (i s')) raw) [bStar; bSlash] with
   | None => Scanner (S (length raw)) false false true (buf s)
   | Some j => Scanner (S (i s' + (j + 2))) false false false (buf s)
   end) ∧
  StripComments (B "a/b") = B "a/b".
Proof.
  intros s Hc He Hq Hb Hall Hlen s'.
  assert (loop (S n) raw start = Scanner (S (i s)) false false true (buf s))
    as Hin.
  { rewrite (loop_next _ _ _ Hb). fold s. unfold body.
    by rewrite Hb, Hc, He, Hq. }
  assert (s' = Scanner (S (i s) + m) false false true (buf s)) as Hs'.
  { unfold s'. pose proof (loop_skip_in_comment raw (S n) m) as H.
    rewrite Hin in H. simpl in H. by apply H. }
  split_and!; [done| | | |by vm_compute].
  - intros Hend. assert (final raw = s') as Hfinal
      by (apply final_reached; fold s'; rewrite Hs'; simpl; lia).
    unfold StripComments. rewrite Hfinal, Hs'. done.
  - intros Hb'. rewrite (loop_next _ _ _ Hb'). fold s'. unfold body.
    rewrite Hb'. rewrite Hs'. simpl. by case_match.
  - intros Hb'. rewrite (loop_next _ _ _ Hb'). fold s'. unfold body.
    rewrite Hb'. rewrite Hs'. simpl. by case_match.
Qed.

Lemma StripComments_lone_slash_witness :
  loop 4 (B "a/bc") start = Scanner 4 false false true (B "a") ∧
  StripComments (B "a/bc") = B "a/bc".
Proof.
  assert (Forall (λ b, b ≠ bSlash ∧ b ≠ bStar) (take 2 (drop 2 (B "a/bc")))) as Hall
    by (repeat constructor; discriminate).
  pose proof (StripComments_lone_slash (B "a/bc") 1 2
                eq_refl eq_refl eq_refl eq_refl Hall ltac:(vm_compute; lia))
    as (H1 & H2 & _).
  split; [exact H1|]. apply H2. reflexivity.
Defined.

(** ** The generation loop: what is written, and when the run stops *)


(** C9. When the specs before [spec] have been processed and, for [spec],
    the template cannot be read, does not parse, fails when executed, or
    (for a Go file) the formatter fails, the run ends there with status 1
    and one diagnostic: the world and the list of files written are those
    left by the earlier specs, so nothing is written for [spec], the
    files written before are as they were, and the specs after it have
    no effect at all.  The diagnostic of a read failure is the message of
    the error taken as a format, as [errExit(err.Error())] prints it. *)
Theorem process_fail_fast (E : Env) (formatter : Formatter E)
    (d : data (Value E)) (pre post : list pathSpec) (spec : pathSpec)
    (p p1 : proc (World E)) (msg : string) :
  process E formatter d pre p = Returned tt p1 →
  ((∃ text e,
      os_ReadFile E (in_ spec) (world p1) = (text, Some e) ∧
      msg = fmt_Sprintf E e) ∨
   (∃ text t e,
      os_ReadFile E (in_ spec) (world p1) = (text, None) ∧
      template_Parse E (String.string_of_list_byte text) = (t, Some e) ∧
      msg = "error processing template '" +:+ in_ spec +:+ "': " +:+ e) ∨
   (∃ text t rendered e,
      os_ReadFile E (in_ spec) (world p1) = (text, None) ∧
      template_Parse E (String.string_of_list_byte text) = (t, None) ∧
      template_Execute E t d = (rendered, Some e) ∧
      msg = "error executing template '" +:+ in_ spec +:+ "': " +:+ e) ∨
   (∃ text t rendered generated e,
      os_ReadFile E (in_ spec) (world p1) = (text, None) ∧
      template_Parse E (String.string_of_list_byte text) = (t, None) ∧
      template_Execute E t d = (rendered, None) ∧
      IsGoFile spec = true ∧
      formatter (preamble spec ++ rendered) (world p1) = (generated, Some e) ∧
      msg = "error formatting '" +:+ in_ spec +:+ "': " +:+ e)) →
  process E formatter d (pre ++ spec :: post) p =
  Exited 1 (Proc (world p1) ((stderr p1 +:+ msg) +:+ nl) (writes p1)).
Proof.
  intros Hpre Hfail. rewrite process_app, Hpre. simpl.
  unfold mbind, M_bind.
  assert (process_spec E formatter d spec p1 = exited p1 msg) as ->; [|done].
  destruct Hfail as [(text & e & Hr & ->)
                    |[(text & t & e & Hr & Hp & ->)
                    |[(text & t & rendered & e & Hr & Hp & Hx & ->)
                    |(text & t & rendered & generated & e & Hr & Hp & Hx & Hgo & Hf & ->)]]].
  - by eapply process_spec_read_fails.
  - by eapply process_spec_parse_fails.
  - by eapply process_spec_execute_fails.
  - by eapply process_spec_format_fails.
Qed.

Lemma process_fail_fast_witness :
  let fmt : Formatter Demo.env := λ input _, Demo.Source input in
  let generated :=
    B "// Code generated by a.tmpl. DO NOT EDIT." ++ [bNewline; bNewline] ++
    B "package a" in
  process Demo.env fmt (Data [] ∅)
    [PathSpec "a.tmpl" "a.go"; PathSpec "bad.tmpl" "b"; PathSpec "a.tmpl" "c"]
    Demo.p0 =
  Exited 1
    (Proc (<["a.go" := (generated, 420%N)]> Demo.fs0)
          (("error processing template 'bad.tmpl': template: gen:1: unclosed action")
           +:+ nl)
          [("a.go", generated, 420%N)]).
Proof.
  intros fmt generated.
  refine (process_fail_fast Demo.env fmt (Data [] ∅)
            [PathSpec "a.tmpl" "a.go"] [PathSpec "a.tmpl" "c"]
            (PathSpec "bad.tmpl" "b") Demo.p0
            (Proc (<["a.go" := (generated, 420%N)]> Demo.fs0) EmptyString
                  [("a.go", generated, 420%N)])
            "error processing template 'bad.tmpl': template: gen:1: unclosed action"
            _ _).
  - reflexivity.
  - right; left.
    exists (B "{{"), EmptyString, "template: gen:1: unclosed action".
    split_and!; reflexivity.
Defined.

(** ** Exit status *)

Lemma diagnosed_bind {W A B} (m : M W A) (f : A → M W B) (p : proc W) :
  diagnosed p (m p) →
  (∀ a p', m p = Returned a p' → diagnosed p' (f a p')) →
  diagnosed p ((m ≫= f) p).
Proof.
  unfold mbind, M_bind. destruct (m p) as [a p'|code p']; simpl; [|done].
  intros Hp Hf. specialize (Hf a p' eq_refl).
  destruct (f a p') as [b p''|code p'']; simpl in *; by rewrite <- Hp.
Qed.

Lemma diagnosed_errExit {W} (msg : string) (p : proc W) :
  diagnosed p (errExit msg p).
Proof. simpl. eauto. Qed.

Lemma diagnosed_exitOnError {W} err f (p : proc W) :
  diagnosed p (exitOnError err f p).
Proof. destruct err; [apply diagnosed_errExit|done]. Qed.

Lemma diagnosed_parsePath {W} path (p : proc W) :
  diagnosed p (parsePath path p).
Proof.
  unfold parsePath. destruct (strings.IndexByte path "="); [done|].
  apply diagnosed_bind; [|done].
  destruct (negb _); [apply diagnosed_errExit|done].
Qed.

Section ExitStatus.
Context (E : Env).
Implicit Types (p : proc (World E)).

Lemma diagnosed_mustReadAll path p : diagnosed p (mustReadAll E path p).
Proof.
  unfold mustReadAll. apply diagnosed_bind; [done|].
  intros [data err] p' _. apply diagnosed_bind; [|done].
  apply diagnosed_exitOnError.
Qed.

Lemma diagnosed_fileMode path p : diagnosed p (fileMode E path p).
Proof.
  unfold fileMode. apply diagnosed_bind; [done|].
  intros [mode err] p' _. apply diagnosed_bind; [|done].
  apply diagnosed_exitOnError.
Qed.

Lemma diagnosed_readData path p : diagnosed p (readData E path p).
Proof.
  unfold readData. apply diagnosed_bind; [apply diagnosed_mustReadAll|].
  intros data p' _. destruct (json_Unmarshal E _) as [v err].
  apply diagnosed_bind; [|done]. apply diagnosed_exitOnError.
Qed.

Lemma diagnosed_process_spec formatter d spec p :
  diagnosed p (process_spec E formatter d spec p).
Proof.
  unfold process_spec. apply diagnosed_bind; [apply diagnosed_mustReadAll|].
  intros text p1 _. destruct (template_Parse E _) as [t err].
  apply diagnosed_bind; [apply diagnosed_exitOnError|].
  intros _ p2 _. destruct (template_Execute E t d) as [rendered err'].
  apply diagnosed_bind; [apply diagnosed_exitOnError|].
  intros _ p3 _. apply diagnosed_bind.
  - destruct (IsGoFile spec); [|done].
    apply diagnosed_bind; [done|]. intros [g e] p4 _.
    apply diagnosed_bind; [|done]. apply diagnosed_exitOnError.
  - intros g p4 _. apply diagnosed_bind; [apply diagnosed_fileMode|done].
Qed.

Lemma diagnosed_process formatter d specs p :
  diagnosed p (process E formatter d specs p).
Proof.
  revert p. induction specs as [|spec specs IH]; intros p; [done|].
  simpl. apply diagnosed_bind; [apply diagnosed_process_spec|].
  intros _ p' _. apply IH.
Qed.

Lemma diagnosed_parsePaths paths p : diagnosed p (parsePaths E paths p).
Proof.
  revert p. induction paths as [|path paths IH]; intros p; [done|].
  simpl. apply diagnosed_bind; [apply diagnosed_parsePath|].
  intros [i o] p' _. apply diagnosed_bind; [apply IH|done].
Qed.

(** Every way in which [main] ends the process gives status 1 after one
    diagnostic on the error stream; a [main] that returns has written
    nothing there. *)
Lemma diagnosed_main dataArg gi D paths p :
  diagnosed p (main E dataArg gi D paths p).
Proof.
  unfold main. apply diagnosed_bind.
  { destruct (String.eqb _ _); [apply diagnosed_errExit|done]. }
  intros _ p1 _. apply diagnosed_bind.
  { destruct gi; [|done]. apply diagnosed_bind; [done|].
    intros [path err] p2 _. apply diagnosed_bind; [|done].
    apply diagnosed_exitOnError. }
  intros formatter p2 _. apply diagnosed_bind.
  { destruct (length paths =? 0); [apply diagnosed_errExit|done]. }
  intros _ p3 _. apply diagnosed_bind; [apply diagnosed_parsePaths|].
  intros specs p4 _. apply diagnosed_bind; [apply diagnosed_readData|].
  intros v p5 _. apply diagnosed_process.
Qed.

End ExitStatus.

(** C3, at the argument [a.tmpl=] in a world with the files [data.json]
    and [a.tmpl]: the output path is empty, [os.WriteFile] fails, and the
    run all the same ends with status zero and nothing on the error
    stream. *)
Theorem main_ignores_write_error :
  let o := main Demo.env "data.json" false ∅ ["a.tmpl="] Demo.p0 in
  os_WriteFile Demo.env EmptyString (B "package a") 420%N Demo.fs0 =
    (Demo.fs0, Some (Demo.ENOENT EmptyString)) ∧
  o = Returned tt (Proc Demo.fs0 EmptyString [(EmptyString, B "package a", 420%N)]) ∧
  exit_status o = 0%Z.
Proof. by vm_compute. Qed.

(** * Further properties *)

(** ** The stripper, piece by piece *)

Lemma body_offset (pre rest out : list byte) (s : scanner) :
  body (pre ++ rest) (offset (length pre) out s) =
  offset (length pre) out (body rest s).
Proof.
  unfold body, offset. cbn [i quoted esc comment buf].
  rewrite lookup_app_r by lia.
  replace (length pre + i s - length pre) with (i s) by lia.
  destruct (rest !! i s) as [b|]; [|done].
  replace (S (length pre + i s)) with (length pre + S (i s)) by lia.
  rewrite drop_app_add, length_app.
  repeat case_match; cbn [i quoted esc comment buf];
    rewrite ?app_assoc; f_equal; lia.
Qed.

Lemma loop_offset n (pre rest out : list byte) (s : scanner) :
  loop n (pre ++ rest) (offset (length pre) out s) =
  offset (length pre) out (loop n rest s).
Proof.
  revert s. induction n as [|n IH]; intros s; [done|]. cbn [loop].
  replace (i (offset (length pre) out s) <? length (pre ++ rest))
    with (i s <? length rest).
  - destruct (i s <? length rest); [|done]. by rewrite body_offset, IH.
  - unfold offset. cbn [i]. rewrite length_app.
    destruct (Nat.ltb_spec (i s) (length rest)),
      (Nat.ltb_spec (length pre + i s) (length pre + length rest)); done || lia.
Qed.

(** Once the scan stands behind [pre] with the three flags off, it goes
    on as the scan of the rest alone does. *)
Lemma final_resume n (pre rest out : list byte) :
  loop n (pre ++ rest) start = Scanner (length pre) false false false out →
  final (pre ++ rest) = offset (length pre) out (final rest).
Proof.
  intros Hn. rewrite <- (final_of_loop n), Hn.
  replace (Scanner (length pre) false false false out)
    with (offset (length pre) out start)
    by (unfold offset, start; simpl; f_equal; [lia|apply app_nil_r]).
  rewrite loop_offset. f_equal. apply final_fuel. rewrite length_app. lia.
Qed.

Lemma StripComments_resume n (pre rest out : list byte) :
  loop n (pre ++ rest) start = Scanner (length pre) false false false out →
  StripComments (pre ++ rest) =
  if clean rest then out ++ StripComments rest else pre ++ rest.
Proof.
  intros Hn. unfold StripComments, clean.
  rewrite (final_resume n pre rest out Hn). unfold offset. simpl.
  by destruct (quoted (final rest) || esc (final rest) || comment (final rest)).
Qed.

Lemma loop_plain_prefix (pre rest out : list byte) q q' :
  plain q pre = Some q' →
  loop (length pre) (pre ++ rest) (Scanner 0 q false false out) =
  Scanner (length pre) q' false false (out ++ pre).
Proof.
  revert q out. induction pre as [|b pre IH]; intros q out; simpl.
  - intros [= ->]. by rewrite app_nil_r.
  - destruct (written q b) eqn:Hw; [|done]. intros Hp.
    rewrite (body_written (b :: pre ++ rest) (Scanner 0 q false false out) b)
      by done.
    cbn [i quoted buf].
    pose proof (loop_offset (length pre) [b] (pre ++ rest) (out ++ [b])
                  (Scanner 0 (toggle q b) false false [])) as Ho.
    unfold offset in Ho. simpl in Ho. rewrite app_nil_r in Ho.
    rewrite Ho, (IH _ _ Hp). simpl. by rewrite <- app_assoc.
Qed.

Lemma StripComments_app_plain (pre rest : list byte) :
  plain false pre = Some false →
  StripComments (pre ++ rest) = pre ++ StripComments rest.
Proof.
  intros Hp.
  rewrite (StripComments_resume (length pre) pre rest pre)
    by apply (loop_plain_prefix pre rest [] false false Hp).
  unfold clean, StripComments.
  by destruct (quoted (final rest) || esc (final rest) || comment (final rest)).
Qed.

(** X1. A prefix all of whose bytes the loop writes, and that ends
    outside a quoted string, is copied, and what follows it is stripped as
    if it stood alone. *)
Theorem StripComments_prefix (pre rest : list byte) :
  plain false pre = Some false →
  StripComments (pre ++ rest) = pre ++ StripComments rest.
Proof. apply StripComments_app_plain. Qed.

Lemma StripComments_prefix_witness :
  StripComments (B "{'a/b': 1} // one") = B "{'a/b': 1} " ++ StripComments (B "// one").
Proof. apply (StripComments_prefix (B "{'a/b': 1} ") (B "// one")). reflexivity. Defined.

Lemma HasPrefix_nil (s : list byte) : bytes.HasPrefix s [] = true.
Proof. by destruct s. Qed.

Lemma Index_app_star_slash (c rest : list byte) :
  bytes.Index c [bStar; bSlash] = None →
  bytes.Index (c ++ [bStar; bSlash] ++ rest) [bStar; bSlash] = Some (length c).
Proof.
  induction c as [|x c IH]; [by destruct rest|]. intros H.
  cbn [bytes.Index] in H.
  destruct (bytes.HasPrefix (x :: c) [bStar; bSlash]) eqn:Hx; [done|].
  destruct (bytes.Index c [bStar; bSlash]) eqn:Hc; [done|].
  change ((x :: c) ++ [bStar; bSlash] ++ rest)
    with (x :: (c ++ [bStar; bSlash] ++ rest)).
  cbn [bytes.Index].
  replace (bytes.HasPrefix (x :: c ++ [bStar; bSlash] ++ rest) [bStar; bSlash])
    with false.
  - by rewrite IH.
  - destruct c as [|y c]; simpl in *.
    + by rewrite andb_false_r.
    + by rewrite HasPrefix_nil in *.
Qed.

(** The scan of an input that opens with a line comment stands on the
    newline two iterations later, with nothing written. *)
Lemma loop_line_comment (c rest : list byte) :
  bNewline ∉ c →
  loop 2 (([bSlash; bSlash] ++ c) ++ bNewline :: rest) start =
  Scanner (length ([bSlash; bSlash] ++ c)) false false false [].
Proof.
  intros Hc. cbn -[bytes.IndexByte bytes.Index]. rewrite drop_0.
  by rewrite (IndexByte_app_cons c rest bNewline Hc).
Qed.

Lemma loop_block_comment (c rest : list byte) :
  bytes.Index c [bStar; bSlash] = None →
  loop 2 (([bSlash; bStar] ++ c ++ [bStar; bSlash]) ++ rest) start =
  Scanner (length ([bSlash; bStar] ++ c ++ [bStar; bSlash])) false false false [].
Proof.
  intros Hc. cbn -[bytes.IndexByte bytes.Index]. rewrite drop_0, <- app_assoc.
  rewrite (Index_app_star_slash c rest Hc).
  rewrite length_app. simpl. f_equal; lia.
Qed.

Lemma clean_prefix (pre rest : list byte) :
  plain false pre = Some false → clean (pre ++ rest) = clean rest.
Proof.
  intros Hp. unfold clean.
  by rewrite (final_resume (length pre) pre rest pre
                (loop_plain_prefix pre rest [] false false Hp)).
Qed.

(** X2. A line comment that a newline ends is removed, from its two
    slashes up to the newline, which is kept; what precedes it is kept
    and what follows the newline is stripped in turn.  If what follows
    leaves the scan inside a quoted string, an escape or a comment, the
    whole input comes back unchanged, comment included. *)
Theorem StripComments_line_comment (pre c rest : list byte) :
  plain false pre = Some false →
  bNewline ∉ c →
  StripComments (pre ++ [bSlash; bSlash] ++ c ++ [bNewline] ++ rest) =
  if clean rest then pre ++ [bNewline] ++ StripComments rest
  else pre ++ [bSlash; bSlash] ++ c ++ [bNewline] ++ rest.
Proof.
  intros Hp Hc. rewrite (StripComments_app_plain _ _ Hp).
  replace ([bSlash; bSlash] ++ c ++ [bNewline] ++ rest)
    with (([bSlash; bSlash] ++ c) ++ [bNewline] ++ rest)
    by (by rewrite <- !app_assoc).
  rewrite (StripComments_resume 2 ([bSlash; bSlash] ++ c) ([bNewline] ++ rest)
             [] (loop_line_comment c rest Hc)).
  assert (plain false [bNewline] = Some false) as Hnl by done.
  rewrite (clean_prefix _ rest Hnl), (StripComments_app_plain _ rest Hnl).
  by destruct (clean rest).
Qed.

Lemma StripComments_line_comment_witness :
  StripComments (B "[1, // one" ++ [bNewline] ++ B "2]") =
  B "[1, " ++ [bNewline] ++ B "2]".
Proof.
  apply (StripComments_line_comment (B "[1, ") (B " one") (B "2]")).
  - reflexivity.
  - by apply (bool_decide_unpack _).
Defined.

Lemma StripComments_app_line_comment_end (pre c : list byte) :
  plain false pre = Some false →
  bNewline ∉ c →
  StripComments (pre ++ [bSlash; bSlash] ++ c) = pre.
Proof.
  intros Hp Hc. rewrite (StripComments_app_plain _ _ Hp).
  assert (loop 2 ([bSlash; bSlash] ++ c) start =
          Scanner (S (length ([bSlash; bSlash] ++ c))) false false false [])
    as H2.
  { cbn -[bytes.IndexByte bytes.Index]. rewrite drop_0.
    by rewrite (proj2 (IndexByte_None c bNewline) Hc). }
  assert (final ([bSlash; bSlash] ++ c) = loop 2 ([bSlash; bSlash] ++ c) start)
    as Hfinal by (apply final_reached; rewrite H2; simpl; lia).
  unfold StripComments. rewrite Hfinal, H2. simpl. apply app_nil_r.
Qed.

(** X3. A line comment that the end of the input ends is removed, and
    what precedes it is the whole result. *)
Theorem StripComments_trailing_line_comment (pre c : list byte) :
  plain false pre = Some false →
  bNewline ∉ c →
  StripComments (pre ++ [bSlash; bSlash] ++ c) = pre.
Proof. apply StripComments_app_line_comment_end. Qed.

Lemma StripComments_trailing_line_comment_witness :
  StripComments (B "{'Name': 'widget'} // a widget") = B "{'Name': 'widget'} ".
Proof.
  apply (StripComments_trailing_line_comment (B "{'Name': 'widget'} ") (B " a widget")).
  - reflexivity.
  - by apply (bool_decide_unpack _).
Defined.

(** X4. A block comment is removed, from its slash-star to the first
    star-slash behind it, both included; what precedes it is kept and what
    follows it is stripped in turn.  If what follows leaves the scan
    inside a quoted string, an escape or a comment, the whole input comes
    back unchanged, comment included. *)
Theorem StripComments_block_comment (pre c rest : list byte) :
  plain false pre = Some false →
  bytes.Index c [bStar; bSlash] = None →
  StripComments (pre ++ [bSlash; bStar] ++ c ++ [bStar; bSlash] ++ rest) =
  if clean rest then pre ++ StripComments rest
  else pre ++ [bSlash; bStar] ++ c ++ [bStar; bSlash] ++ rest.
Proof.
  intros Hp Hc. rewrite (StripComments_app_plain _ _ Hp).
  replace ([bSlash; bStar] ++ c ++ [bStar; bSlash] ++ rest)
    with (([bSlash; bStar] ++ c ++ [bStar; bSlash]) ++ rest)
    by (by rewrite <- !app_assoc).
  rewrite (StripComments_resume 2 _ _ [] (loop_block_comment c rest Hc)).
  by destruct (clean rest).
Qed.

Lemma StripComments_block_comment_witness :
  StripComments (B "[1, /* one * / */ 2]") = B "[1,  2]".
Proof.
  apply (StripComments_block_comment (B "[1, ") (B " one * / ") (B " 2]"));
    reflexivity.
Defined.

Lemma plain_no_quote_no_slash (l : list byte) q :
  plain false l = Some q → Forall (λ b, ¬ isQuote b) l → bSlash ∉ l.
Proof.
  induction l as [|b l IH]; simpl; [intros; apply not_elem_of_nil|].
  destruct (written false b) eqn:Hw; [|done].
  intros Hp Hall. apply Forall_cons in Hall as [Hb Hl].
  unfold isQuote in Hb. unfold written, toggle in *.
  rewrite !byte_eqb_decide in *.
  rewrite (bool_decide_eq_false_2 (b = bDQuote)) in * by tauto.
  rewrite (bool_decide_eq_false_2 (b = bSQuote)) in * by tauto.
  simpl in *. rewrite andb_false_r, andb_true_r in Hw. simpl in Hw.
  apply negb_true_iff, bool_decide_eq_false in Hw.
  apply not_elem_of_cons. split; [congruence|]. by apply IH.
Qed.

Lemma Forall_sublist {A} (P : A → Prop) (k l : list A) :
  k `sublist_of` l → Forall P l → Forall P k.
Proof.
  induction 1 as [|x k l _ IH|x k l _ IH]; [done|..];
    intros [Hx Hl]%Forall_cons; [constructor|]; auto.
Qed.

(** X5. For an input without quote bytes, the result is the input
    itself (the fallback) or holds no slash at all. *)
Theorem StripComments_no_slash_left (raw : list byte) :
  Forall (λ b, ¬ isQuote b) raw →
  StripComments raw = raw ∨ bSlash ∉ StripComments raw.
Proof.
  intros Hall. unfold StripComments.
  destruct (quoted (final raw) || esc (final raw) || comment (final raw));
    [by left|right].
  eapply plain_no_quote_no_slash; [apply buf_plain|].
  eapply Forall_sublist; [|exact Hall].
  etrans; [apply buf_sublist|apply sublist_take].
Qed.

Lemma StripComments_no_slash_left_witness :
  StripComments (B "1 /* one */ + 2 // three") = B "1 /* one */ + 2 // three" ∨
  bSlash ∉ StripComments (B "1 /* one */ + 2 // three").
Proof.
  apply StripComments_no_slash_left. by apply (bool_decide_unpack _).
Defined.

(** X6. The two quote bytes open and close the same flag: a string that
    one of them opens is closed by either of them.  Between them, with no
    quote byte and no backslash inside, every byte is copied, slashes and
    stars included. *)
Theorem StripComments_quotes_interchangeable (q1 q2 : byte) (l : list byte) :
  isQuote q1 → isQuote q2 →
  Forall (λ b, b ≠ bDQuote ∧ b ≠ bSQuote ∧ b ≠ bBackslash) l →
  StripComments ([q1] ++ l ++ [q2]) = [q1] ++ l ++ [q2] ∧
  quoted (loop (S (length l)) ([q1] ++ l ++ [q2]) start) = true.
Proof.
  intros Hq1 Hq2 Hl.
  assert (plain false [q1] = Some true) as H1 by (by destruct Hq1 as [->| ->]).
  assert (plain true [q2] = Some false) as H2 by (by destruct Hq2 as [->| ->]).
  assert (plain false ([q1] ++ l) = Some true) as H1l.
  { rewrite plain_app, H1. simpl. by apply plain_inside_quotes. }
  split.
  - apply StripComments_plain.
    rewrite (app_assoc [q1] l [q2]), plain_app, H1l. exact H2.
  - rewrite (app_assoc [q1] l [q2]).
    replace (S (length l)) with (length ([q1] ++ l)) by done.
    unfold start. by rewrite (loop_plain_prefix _ _ [] false true H1l).
Qed.

Lemma StripComments_quotes_interchangeable_witness :
  StripComments ([bSQuote] ++ B "a // b" ++ [bDQuote]) =
  [bSQuote] ++ B "a // b" ++ [bDQuote].
Proof.
  apply (StripComments_quotes_interchangeable bSQuote bDQuote (B "a // b")).
  - by right.
  - by left.
  - by apply (bool_decide_unpack _).
Defined.

(** X7. The loop of [StripComments] ends and stays in bounds: within
    [len(raw)] iterations its guard fails, more iterations change nothing,
    and the index is then [len(raw)] or [len(raw) + 1]; at every
    iteration the index is at most [len(raw) + 1]. *)
Theorem loop_ends_in_bounds (raw : list byte) :
  length raw ≤ i (final raw) ≤ S (length raw) ∧
  (∀ n, length raw ≤ n → loop n raw start = final raw) ∧
  (∀ n, i (loop n raw start) ≤ S (length raw)).
Proof.
  split_and!.
  - apply final_index.
  - apply loop_index_bound.
  - intros n. apply final_fuel.
  - intros n. apply loop_index_bound.
Qed.

(** ** Output paths and the Go extension *)

Lemma Ext_of_go (stem : string) : filepath.Ext (stem +:+ ".go") = ".go".
Proof.
  unfold filepath.Ext. rewrite length_app_string.
  change (String.length ".go") with 3.
  replace (String.length stem + 3) with (S (String.length stem + 2)) by lia.
  cbn [filepath.Ext_from]. rewrite get_app_r. cbn.
  replace (String.length stem + 2) with (S (String.length stem + 1)) by lia.
  cbn [filepath.Ext_from]. rewrite get_app_r. cbn.
  replace (String.length stem + 1) with (S (String.length stem + 0)) by lia.
  cbn [filepath.Ext_from]. rewrite get_app_r. cbn.
  rewrite Nat.add_0_r. apply slice_app_r.
Qed.

Lemma IsGoFile_ends_go (spec : pathSpec) :
  IsGoFile spec = true ↔ ∃ stem, out spec = stem +:+ ".go".
Proof.
  unfold IsGoFile. rewrite String.eqb_eq. split.
  - intros HE.
    destruct (Ext_from_slice (out spec) (String.length (out spec))) as [H0|[k Hk]];
      fold (filepath.Ext (out spec)) in *.
    + by rewrite HE in H0.
    + exists (String.substring 0 k (out spec)). rewrite <- HE, Hk.
      apply substring_split.
  - intros [stem ->]. apply Ext_of_go.
Qed.

(** X8. An output is taken for a Go file exactly when its path ends in
    [.go]. *)
Theorem IsGoFile_suffix (spec : pathSpec) :
  IsGoFile spec = true ↔ ∃ stem, out spec = stem +:+ ".go".
Proof. apply IsGoFile_ends_go. Qed.

Lemma app_string_inv_tail (a b x : string) : a +:+ x = b +:+ x → a = b.
Proof.
  intros H.
  assert (String.length a = String.length b) as Hlen.
  { apply (f_equal String.length) in H. rewrite !length_app_string in H. lia. }
  rewrite <- (substring_0_app a x), <- (substring_0_app b x).
  by rewrite H, Hlen.
Qed.

Lemma app_string_assoc (a b c : string) : (a +:+ b) +:+ c = a +:+ (b +:+ c).
Proof. induction a as [|x a IH]; [done|]. by rewrite !app_String, IH. Qed.

(** X9. For an argument without [=] that [parsePath] accepts, the output
    it derives is taken for a Go file exactly when the argument ends in
    [.go.tmpl]. *)
Theorem parsePath_default_go {W} (path i o : string) (p p' : proc W) :
  strings.IndexByte path "=" = None →
  parsePath path p = Returned (i, o) p' →
  (IsGoFile (PathSpec i o) = true ↔ ∃ stem, path = stem +:+ ".go.tmpl").
Proof.
  intros Hk. unfold parsePath. rewrite Hk.
  destruct (String.eqb_spec (filepath.Ext path) Ext) as [HE|HE]; [|done].
  apply Ext_is_tmpl in HE as [stem ->]. cbn.
  rewrite length_app_string. change (String.length Ext) with 5.
  replace (String.length stem + 5 - 5) with (String.length stem) by lia.
  rewrite slice_app_l. intros [= <- <- <-].
  rewrite (IsGoFile_ends_go (PathSpec (stem +:+ Ext) stem)). simpl. split.
  - intros [s ->]. exists s. by rewrite app_string_assoc.
  - intros [s Hs]. exists s.
    change (".go.tmpl") with (".go" +:+ Ext) in Hs.
    rewrite <- app_string_assoc in Hs. by apply app_string_inv_tail in Hs.
Qed.

Lemma parsePath_default_go_witness :
  IsGoFile (PathSpec "numeric.gen.go.tmpl" "numeric.gen.go") = true ↔
  ∃ stem, "numeric.gen.go.tmpl" = stem +:+ ".go.tmpl".
Proof.
  apply (parsePath_default_go "numeric.gen.go.tmpl" _ _
           (Proc tt EmptyString []) (Proc tt EmptyString []));
    reflexivity.
Defined.

(** ** The variables given by [-d] *)

Lemma listValue_Set_one_sep (l : listValue) (name value : string) :
  strings.IndexByte name "=" = None →
  strings.IndexByte value "=" = None →
  listValue_Set l (name +:+ String "=" value) = (<[name := value]> l, None).
Proof.
  intros Hn Hv. unfold listValue_Set.
  by rewrite (Split_app name value "=" Hn), (Split_no_sep value "=" Hv).
Qed.

Lemma listValue_Set_accepts (l l' : listValue) (v : string) :
  listValue_Set l v = (l', None) →
  ∃ name value, v = name +:+ String "=" value ∧
                strings.IndexByte name "=" = None ∧
                strings.IndexByte value "=" = None ∧
                l' = <[name := value]> l.
Proof.
  unfold listValue_Set.
  pose proof (Split_length v "=") as Hlen.
  destruct (length (strings.Split v "=") =? 2) eqn:H2; [|done]. simpl.
  apply Nat.eqb_eq in H2. rewrite H2 in Hlen.
  destruct (strings.IndexByte v "=") as [k|] eqn:Hk;
    [|apply strings_Count_0 in Hk; lia].
  destruct (strings_IndexByte_Some _ _ _ Hk) as (a & b & -> & _ & Ha).
  rewrite strings_Count_app in Hlen. simpl in Hlen.
  assert (strings.IndexByte b "=" = None) as Hb
    by (apply strings_Count_0; lia).
  rewrite (Split_app a b "=" Ha), (Split_no_sep b "=" Hb). simpl.
  intros [= <-]. by exists a, b.
Qed.

(** X10. Two [-d] flags in a row: the second value can be looked up under
    its name; a first flag of another name keeps its value and the order
    of the two flags does not matter; a first flag of the same name is
    overwritten. *)
Theorem listValue_Set_twice (l : listValue) (n1 v1 n2 v2 : string) :
  strings.IndexByte n1 "=" = None → strings.IndexByte v1 "=" = None →
  strings.IndexByte n2 "=" = None → strings.IndexByte v2 "=" = None →
  let set l n v := (listValue_Set l (n +:+ String "=" v)).1 in
  set (set l n1 v1) n2 v2 !! n2 = Some v2 ∧
  (n1 ≠ n2 →
   set (set l n1 v1) n2 v2 !! n1 = Some v1 ∧
   set (set l n1 v1) n2 v2 = set (set l n2 v2) n1 v1) ∧
  (n1 = n2 → set (set l n1 v1) n2 v2 = set l n2 v2).
Proof.
  intros H1 H1' H2 H2' set. subst set. cbv beta.
  rewrite !(listValue_Set_one_sep l) by done. cbn [fst].
  rewrite !listValue_Set_one_sep by done. cbn [fst].
  split_and!.
  - apply lookup_insert_eq.
  - intros Hne. split.
    + rewrite lookup_insert_ne by done. apply lookup_insert_eq.
    + by apply insert_insert_ne.
  - intros ->. apply insert_insert_eq.
Qed.

Lemma listValue_Set_twice_witness :
  (listValue_Set (listValue_Set ∅ "Type=int8").1 "Type=int16").1 =
  (listValue_Set ∅ "Type=int16").1.
Proof.
  apply (listValue_Set_twice ∅ "Type" "int8" "Type" "int16"); reflexivity.
Defined.

(** X11. [String] gives back the flag: for a token that [Set] accepts
    into an empty map, every string that [String] may return for the
    resulting map is the token itself; for the empty map it is the empty
    string. *)
Theorem listValue_String_Set (l : listValue) (v : string) :
  listValue_Set ∅ v = (l, None) →
  (∀ s, listValue_String l s ↔ s = v) ∧
  (∀ s, listValue_String ∅ s ↔ s = EmptyString).
Proof.
  intros (name & value & -> & _ & _ & ->)%listValue_Set_accepts.
  unfold listValue_String. split; intros s.
  - rewrite insert_empty, map_to_list_singleton. split.
    + intros (entries & ->%Permutation_singleton_r & ->). reflexivity.
    + intros ->. by exists [(name, value)].
  - rewrite map_to_list_empty. split.
    + intros (entries & ->%Permutation_nil_r & ->). reflexivity.
    + intros ->. by exists [].
Qed.

Lemma listValue_String_Set_witness :
  listValue_String {["Type" := "int8"]} "Type=int8".
Proof.
  apply (proj1 (listValue_String_Set {["Type" := "int8"]} "Type=int8"
                  ltac:(by unfold listValue_Set; cbn; rewrite insert_empty))).
  reflexivity.
Defined.

(** ** One spec, and a list of specs *)

Lemma process_spec_cases (E : Env) (formatter : Formatter E)
    (d : data (Value E)) (spec : pathSpec) (p : proc (World E)) :
  match process_spec E formatter d spec p with
  | Returned _ p' =>
    ∃ generated perm,
      os_Stat E (in_ spec) (world p) = (perm, None) ∧
      p' = Proc (os_WriteFile E (out spec) generated perm (world p)).1
                (stderr p) (writes p ++ [(out spec, generated, perm)])
  | Exited code p' =>
    code = 1%Z ∧ world p' = world p ∧ writes p' = writes p
  end.
Proof.
  unfold process_spec. run_M.
  destruct (os_ReadFile E (in_ spec) (world p)) as [text [e|]]; [done|].
  cbn -[preamble String.append].
  destruct (template_Parse E _) as [t [e|]]; [done|].
  cbn -[preamble String.append].
  destruct (template_Execute E t d) as [rendered [e|]]; [done|].
  cbn -[preamble String.append].
  destruct (IsGoFile spec).
  - destruct (formatter _ (world p)) as [g [e|]]; [done|].
    cbn -[preamble String.append].
    destruct (os_Stat E (in_ spec) (world p)) as [perm [e|]]; [done|].
    cbn. by exists g, perm.
  - destruct (os_Stat E (in_ spec) (world p)) as [perm [e|]]; [done|].
    cbn. by exists rendered, perm.
Qed.

(** X12. What one spec does to the world.  If it returns, it has made
    exactly one call of [os.WriteFile], to the output path, with the
    permission bits that [os.Stat] gave for the input path, and it has
    written nothing to the error stream.  If it ends the process, the
    status is 1 and no file was written. *)
Theorem process_spec_effect (E : Env) (formatter : Formatter E)
    (d : data (Value E)) (spec : pathSpec) (p : proc (World E)) :
  match process_spec E formatter d spec p with
  | Returned _ p' =>
    ∃ generated perm,
      os_Stat E (in_ spec) (world p) = (perm, None) ∧
      p' = Proc (os_WriteFile E (out spec) generated perm (world p)).1
                (stderr p) (writes p ++ [(out spec, generated, perm)])
  | Exited code p' =>
    code = 1%Z ∧ world p' = world p ∧ writes p' = writes p
  end.
Proof. apply process_spec_cases. Qed.

Lemma process_returns_writes_aux (E : Env) (formatter : Formatter E)
    (d : data (Value E)) (specs : list pathSpec) (p p' : proc (World E)) :
  process E formatter d specs p = Returned tt p' →
  (writes p').*1.*1 = (writes p).*1.*1 ++ (out <$> specs) ∧
  stderr p' = stderr p.
Proof.
  revert p. induction specs as [|spec specs IH]; intros p.
  - intros [= <-]. by rewrite app_nil_r.
  - simpl. unfold mbind, M_bind.
    pose proof (process_spec_cases E formatter d spec p) as Hs.
    destruct (process_spec E formatter d spec p) as [[] p1|code p1]; [|done].
    destruct Hs as (g & perm & _ & ->). intros [Hw He]%IH.
    simpl in *. split; [|done].
    rewrite Hw, !fmap_app. simpl. by rewrite <- app_assoc.
Qed.

(** X13. A run of [process] that returns has called [os.WriteFile] once
    for each spec, in the order of the specs, on their output paths, and
    has written nothing to the error stream. *)
Theorem process_returns_writes (E : Env) (formatter : Formatter E)
    (d : data (Value E)) (specs : list pathSpec) (p p' : proc (World E)) :
  process E formatter d specs p = Returned tt p' →
  (writes p').*1.*1 = (writes p).*1.*1 ++ (out <$> specs) ∧
  stderr p' = stderr p.
Proof. apply process_returns_writes_aux. Qed.

Lemma process_returns_writes_witness :
  let p' := Proc (<["a.txt" := (B "package a", 420%N)]> Demo.fs0) EmptyString
                 [("a.txt", B "package a", 420%N)] in
  (writes p').*1.*1 = (writes Demo.p0).*1.*1 ++ (out <$> [PathSpec "a.tmpl" "a.txt"]) ∧
  stderr p' = stderr Demo.p0.
Proof.
  intros p'.
  apply (process_returns_writes Demo.env (λ input _, Demo.Source input)
           (Data [] ∅) [PathSpec "a.tmpl" "a.txt"] Demo.p0 p').
  reflexivity.
Defined.

(** X14. A run of [process] that ends the process has status 1 and
    stopped at the first spec that failed: the specs before it were
    processed, and the world and the files written are as they left
    them. *)
Theorem process_exits_at_first_failure (E : Env) (formatter : Formatter E)
    (d : data (Value E)) (specs : list pathSpec) (p p' : proc (World E))
    (code : Z) :
  process E formatter d specs p = Exited code p' →
  ∃ pre spec post p1,
    specs = pre ++ spec :: post ∧
    process E formatter d pre p = Returned tt p1 ∧
    process_spec E formatter d spec p1 = Exited code p' ∧
    code = 1%Z ∧ world p' = world p1 ∧ writes p' = writes p1.
Proof.
  revert p. induction specs as [|spec specs IH]; intros p; [done|].
  simpl. unfold mbind, M_bind.
  pose proof (process_spec_cases E formatter d spec p) as Hs.
  destruct (process_spec E formatter d spec p) as [[] p1|code1 p1] eqn:Hspec.
  - intros (pre & s & post & p2 & -> & Hpre & Hfail & ? & ? & ?)%IH.
    exists (spec :: pre), s, post, p2. split_and!; [done| |done..].
    simpl. unfold mbind, M_bind. by rewrite Hspec.
  - intros [= <- <-]. destruct Hs as (-> & Hw & Hwr).
    by exists [], spec, specs, p.
Qed.

Lemma process_exits_at_first_failure_witness :
  ∃ pre spec post p1,
    [PathSpec "a.tmpl" "a.txt"; PathSpec "field.tmpl" "f.txt"] = pre ++ spec :: post ∧
    process Demo.env (λ input _, Demo.Source input) (Data [] ∅) pre Demo.p0
      = Returned tt p1 ∧
    writes p1 = [("a.txt", B "package a", 420%N)].
Proof.
  destruct (process_exits_at_first_failure Demo.env
              (λ input _, Demo.Source input) (Data [] ∅)
              [PathSpec "a.tmpl" "a.txt"; PathSpec "field.tmpl" "f.txt"]
              Demo.p0
              (Proc (<["a.txt" := (B "package a", 420%N)]> Demo.fs0)
                    ("error executing template 'field.tmpl': template: gen:1:2: executing gen: can't evaluate field" +:+ nl)
                    [("a.txt", B "package a", 420%N)])
              1 eq_refl)
    as (pre & spec & post & p1 & Hs & Hpre & _ & _ & _ & Hw).
  exists pre, spec, post, p1. split_and!; [done..|]. by rewrite <- Hw.
Defined.

(** X15. When no output path ends in [.go], the formatter plays no part:
    the run is the same for any two formatters. *)
Theorem process_without_go_files (E : Env) (f1 f2 : Formatter E)
    (d : data (Value E)) (specs : list pathSpec) (p : proc (World E)) :
  Forall (λ spec, IsGoFile spec = false) specs →
  process E f1 d specs p = process E f2 d specs p.
Proof.
  intros Hall. revert p. induction Hall as [|spec specs Hgo _ IH]; intros p;
    [done|].
  simpl. unfold mbind, M_bind.
  assert (process_spec E f1 d spec p = process_spec E f2 d spec p) as ->.
  { unfold process_spec. by rewrite Hgo. }
  destruct (process_spec E f2 d spec p); [apply IH|done].
Qed.

Lemma process_without_go_files_witness :
  process Demo.env (formatSource Demo.env) (Data [] ∅)
    [PathSpec "a.tmpl" "a.txt"] Demo.p0 =
  process Demo.env (λ input _, Demo.Source input) (Data [] ∅)
    [PathSpec "a.tmpl" "a.txt"] Demo.p0.
Proof.
  apply process_without_go_files. by repeat constructor.
Defined.

(** X16. When the template was rendered (and formatted, for a Go file)
    but [os.Stat] fails for the input path, the process ends with
    status 1 and no file is written; the diagnostic is the message of
    that error taken as a format with no operand, as
    [errExit(err.Error())] prints it. *)
Theorem process_spec_stat_fails (E : Env) (formatter : Formatter E)
    (d : data (Value E)) (spec : pathSpec) (p : proc (World E))
    text t rendered generated perm e :
  os_ReadFile E (in_ spec) (world p) = (text, None) →
  template_Parse E (String.string_of_list_byte text) = (t, None) →
  template_Execute E t d = (rendered, None) →
  (if IsGoFile spec
   then formatter (preamble spec ++ rendered) (world p) = (generated, None)
   else generated = rendered) →
  os_Stat E (in_ spec) (world p) = (perm, Some e) →
  process_spec E formatter d spec p =
  Exited 1 (Proc (world p) ((stderr p +:+ fmt_Sprintf E e) +:+ nl) (writes p)).
Proof.
  intros Hr Hp Hx Hf Hs.
  rewrite (process_spec_rendered E _ _ _ _ _ _ _ Hr Hp Hx). run_M.
  destruct (IsGoFile spec).
  - rewrite Hf. run_M. by rewrite Hs.
  - by rewrite Hs.
Qed.

Lemma process_spec_stat_fails_witness :
  let E := {| World := unit; Template := unit; Value := unit;
              os_ReadFile := λ _ _, ([], None);
              os_Stat := λ _ _, (0%N, Some "stat 100%d.tmpl: no such file or directory");
              os_WriteFile := λ _ _ _ w, (w, None);
              exec_LookPath := λ name _, (name, None);
              exec_Output := λ _ input _, (input, None);
              template_Parse := λ _, (tt, None);
              template_Execute := λ _ _, ([], None);
              json_Unmarshal := λ _, (tt, None);
              format_Source := λ src, (src, None);
              fmt_Sprintf := Demo.Sprintf;
              flag_Parse := λ _ _ _, FlagsExit 2 EmptyString |} in
  process_spec E (λ input _, format_Source E input) (Data tt ∅)
    (PathSpec "100%d.tmpl" "100") (Proc tt EmptyString []) =
  Exited 1 (Proc tt ("stat 100%!d(MISSING).tmpl: no such file or directory" +:+ nl) []).
Proof.
  intros E.
  apply (process_spec_stat_fails E (λ input _, format_Source E input)
           (Data tt ∅) (PathSpec "100%d.tmpl" "100") (Proc tt EmptyString [])
           [] tt [] [] 0%N "stat 100%d.tmpl: no such file or directory");
    reflexivity.
Defined.

(** ** [main]: before anything is written *)

Lemma parsePath_state {W} (path : string) (p : proc W) :
  match parsePath path p with
  | Returned _ p' => p' = p
  | Exited code p' => code = 1%Z ∧ world p' = world p ∧ writes p' = writes p
  end.
Proof.
  unfold parsePath. destruct (strings.IndexByte path "="); [done|].
  by destruct (negb _).
Qed.

Lemma parsePaths_state (E : Env) (paths : list string) (p : proc (World E)) :
  match parsePaths E paths p with
  | Returned specs p' =>
    p' = p ∧
    Forall2 (λ path spec, parsePath path p = Returned (in_ spec, out spec) p)
            paths specs
  | Exited code p' => code = 1%Z ∧ world p' = world p ∧ writes p' = writes p
  end.
Proof.
  induction paths as [|path paths IH]; [by split|].
  simpl. unfold mbind, M_bind.
  pose proof (parsePath_state path p) as Hp.
  destruct (parsePath path p) as [[i o] p1|code p1] eqn:Hpath; [|done].
  subst p1. destruct (parsePaths E paths p) as [specs p2|code p2]; [|done].
  destruct IH as [-> IH]. simpl. split; [done|]. by constructor.
Qed.




(** ** The data file *)

Lemma readData_state (E : Env) (path : string) (p : proc (World E)) :
  match readData E path p with
  | Returned _ p' => p' = p
  | Exited code p' => code = 1%Z ∧ world p' = world p ∧ writes p' = writes p
  end.
Proof.
  unfold readData. run_M.
  destruct (os_ReadFile E path (world p)) as [content [e|]]; [done|].
  run_M. destruct (json_Unmarshal E _) as [v [e|]]; [done|].
  run_M. by destruct p.
Qed.

(** X18. A data file that ends in a line comment: the parser is given
    the document before the comment, and [readData] returns what the
    parser makes of it, or ends the process with the parser's message. *)
Theorem readData_trailing_comment (E : Env) (path : string)
    (p : proc (World E)) (pre c : list byte) :
  os_ReadFile E path (world p) = (pre ++ [bSlash; bSlash] ++ c, None) →
  plain false pre = Some false →
  bNewline ∉ c →
  readData E path p =
  match json_Unmarshal E pre with
  | (v, None) => Returned v p
  | (_, Some e) => Exited 1 (Proc (world p)
                                  ((stderr p +:+ "invalid JSON data: " +:+ e) +:+ nl)
                                  (writes p))
  end.
Proof.
  intros Hr Hp Hc. unfold readData, mustReadAll, sys, mbind, M_bind.
  rewrite Hr. unfold exitOnError at 1. unfold mret, M_ret.
  rewrite (StripComments_app_line_comment_end pre c Hp Hc).
  destruct (json_Unmarshal E pre) as [v [e|]]; [done|]. by destruct p.
Qed.

Lemma readData_trailing_comment_witness :
  readData Demo.env "data.json" Demo.p0 = Returned (B "{} ") Demo.p0.
Proof.
  apply (readData_trailing_comment Demo.env "data.json" Demo.p0
           (B "{} ") (B " no data")).
  - reflexivity.
  - reflexivity.
  - by apply (bool_decide_unpack _).
Defined.

Lemma bind_Returned_inv {W A B} (m : M W A) (f : A → M W B) p b p' :
  (m ≫= f) p = Returned b p' →
  ∃ a p1, m p = Returned a p1 ∧ f a p1 = Returned b p'.
Proof.
  unfold mbind, M_bind. destruct (m p) as [a p1|code p1]; [|done]. eauto.
Qed.

Lemma errExit_never_returns {W} (msg : string) (p p' : proc W) :
  errExit msg p ≠ Returned tt p'.
Proof. done. Qed.

Lemma exitOnError_Returned_inv {W} err f (p p' : proc W) :
  exitOnError err f p = Returned tt p' → err = None ∧ p' = p.
Proof. destruct err; [done|]. by intros [= <-]. Qed.

(** X19. A run of [main] that returns had its data option and at least
    one argument, resolved every argument to a spec, and called
    [os.WriteFile] once for each of them, in the order of the arguments,
    on the resolved output paths; it wrote nothing to the error stream. *)
Theorem main_returns_writes (E : Env) (dataArg : string) (gi : bool)
    (D : listValue) (paths : list string) (p p' : proc (World E)) :
  main E dataArg gi D paths p = Returned tt p' →
  dataArg ≠ EmptyString ∧ paths ≠ [] ∧
  ∃ specs,
    Forall2 (λ path spec, parsePath path p = Returned (in_ spec, out spec) p)
            paths specs ∧
    (writes p').*1.*1 = (writes p).*1.*1 ++ (out <$> specs) ∧
    stderr p' = stderr p.
Proof.
  unfold main.
  intros ([] & p1 & H1 & H)%bind_Returned_inv.
  destruct (String.eqb_spec dataArg EmptyString) as [->|Hd]; [done|].
  injection H1 as <-.
  apply bind_Returned_inv in H as (formatter & p2 & H2 & H).
  assert (p2 = p) as ->.
  { destruct gi; [|by injection H2].
    apply bind_Returned_inv in H2 as ([x err] & p3 & [= _ <-] & H2).
    apply bind_Returned_inv in H2 as ([] & p4 & [_ ->]%exitOnError_Returned_inv & H2).
    by injection H2. }
  apply bind_Returned_inv in H as ([] & p3 & H3 & H).
  destruct paths as [|path0 paths0] eqn:Hpaths; [done|]. rewrite <- Hpaths in *.
  replace (length paths =? 0) with false in H3 by (by rewrite Hpaths).
  injection H3 as <-.
  apply bind_Returned_inv in H as (specs & p4 & H4 & H).
  pose proof (parsePaths_state E paths p) as Hps. rewrite H4 in Hps.
  destruct Hps as [-> Hall].
  apply bind_Returned_inv in H as (v & p5 & H5 & H).
  pose proof (readData_state E dataArg p) as Hrd. rewrite H5 in Hrd. subst p5.
  apply process_returns_writes_aux in H as [Hw He].
  split_and!; [done|by rewrite Hpaths|]. by exists specs.
Qed.

Lemma main_returns_writes_witness :
  ∃ specs,
    Forall2 (λ path spec, parsePath path Demo.p0 = Returned (in_ spec, out spec) Demo.p0)
            ["a.tmpl=a.go"; "a.tmpl=b.txt"] specs ∧
    out <$> specs = ["a.go"; "b.txt"].
Proof.
  destruct (main Demo.env "data.json" false ∅ ["a.tmpl=a.go"; "a.tmpl=b.txt"] Demo.p0)
    as [[] p'|code p'] eqn:Hmain; [|by vm_compute in Hmain].
  destruct (main_returns_writes Demo.env "data.json" false ∅
              ["a.tmpl=a.go"; "a.tmpl=b.txt"] Demo.p0 p' Hmain)
    as (_ & _ & specs & Hall & Hw & _).
  exists specs. split; [done|].
  assert (writes p' = [("a.go", B "// Code generated by a.tmpl. DO NOT EDIT." ++
                                [bNewline; bNewline] ++ B "package a", 420%N);
                       ("b.txt", B "package a", 420%N)]) as Hp'.
  { vm_compute in Hmain. by injection Hmain as <-. }
  rewrite Hp' in Hw. simpl in Hw. by rewrite Hw.
Defined.

(** ** The version check of arrow-glib *)

Lemma GARROW_VERSION_CHECK_lex (M m u a b c : Z) :
  GARROW_VERSION_CHECK M m u a b c = true ↔
  (a < M ∨ (a = M ∧ (b < m ∨ (b = m ∧ c ≤ u))))%Z.
Proof.
  unfold GARROW_VERSION_CHECK, GARROW_VERSION_MAJOR, GARROW_VERSION_MINOR,
    GARROW_VERSION_MICRO.
  rewrite !orb_true_iff, !andb_true_iff, !Z.gtb_lt, !Z.eqb_eq, Z.geb_le. lia.
Qed.

(** X20. [GARROW_VERSION_CHECK] compares versions as its comment says,
    same as or newer than: the compiled version passes the check against
    itself, and as a relation between a compiled version and a version
    asked for the check is transitive, total and antisymmetric, that is
    the order of the triples (major, minor, micro) read from the left. *)
Theorem GARROW_VERSION_CHECK_order (x1 x2 x3 y1 y2 y3 z1 z2 z3 : Z) :
  GARROW_VERSION_CHECK x1 x2 x3 x1 x2 x3 = true ∧
  (GARROW_VERSION_CHECK x1 x2 x3 y1 y2 y3 = true →
   GARROW_VERSION_CHECK y1 y2 y3 z1 z2 z3 = true →
   GARROW_VERSION_CHECK x1 x2 x3 z1 z2 z3 = true) ∧
  (GARROW_VERSION_CHECK x1 x2 x3 y1 y2 y3 = true ∨
   GARROW_VERSION_CHECK y1 y2 y3 x1 x2 x3 = true) ∧
  (GARROW_VERSION_CHECK x1 x2 x3 y1 y2 y3 = true →
   GARROW_VERSION_CHECK y1 y2 y3 x1 x2 x3 = true →
   (x1, x2, x3) = (y1, y2, y3)) ∧
  (GARROW_VERSION_CHECK x1 x2 x3 y1 y2 y3 = true ↔
   (y1 < x1 ∨ (y1 = x1 ∧ (y2 < x2 ∨ (y2 = x2 ∧ y3 ≤ x3))))%Z).
Proof.
  rewrite !GARROW_VERSION_CHECK_lex. split_and!; try lia.
  intros H1 H2. assert (x1 = y1 ∧ x2 = y2 ∧ x3 = y3) as (-> & -> & ->) by lia.
  done.
Qed.

Lemma GARROW_VERSION_CHECK_order_witness :
  GARROW_VERSION_CHECK 17 0 0 0 10 0 = true.
Proof.
  apply (proj1 (proj2 (GARROW_VERSION_CHECK_order 17 0 0 16 1 0 0 10 0)));
    reflexivity.
Defined.

(** ** Further facts about the whole tool *)

(** X21. [StripComments] gives back its input unchanged in two cases
    only: the scan ends inside a quoted string, an escape or a comment
    (the fallback), or every byte of the input is written, which means
    that no slash stands outside a quoted string and no backslash inside
    one. *)
Theorem StripComments_unchanged_iff (raw : list byte) :
  StripComments raw = raw ↔ clean raw = false ∨ plain false raw = Some false.
Proof.
  split.
  - intros Heq. destruct (clean raw) eqn:Hclean; [right|by left].
    unfold clean in Hclean. apply negb_true_iff in Hclean.
    unfold StripComments in Heq. rewrite Hclean in Heq.
    apply orb_false_iff in Hclean as [[Hq _]%orb_false_iff _].
    pose proof (buf_plain (length raw) raw) as Hp. fold (final raw) in Hp.
    by rewrite Heq, Hq in Hp.
  - intros [Hclean|Hp]; [|by apply StripComments_plain].
    unfold clean in Hclean. apply negb_false_iff in Hclean.
    unfold StripComments. by rewrite Hclean.
Qed.

(** X22. The ways in which the whole of [main] ends the process:
    [flag.Parse()] ends it, with the status it chooses after printing its
    own text on the error stream, or [errExit] ends it, with status 1
    after one message and one newline were added to the error stream.  A
    [main] that returns has added nothing to the error stream. *)
Theorem main_exit_status (E : Env) (args : list string) (p : proc (World E)) :
  match main_from_args E args p with
  | Returned _ p' => stderr p' = stderr p
  | Exited code p' =>
    (∃ output, flag_Parse E listValue_Set ∅ args = FlagsExit code output ∧
               stderr p' = stderr p +:+ output) ∨
    (code = 1%Z ∧ ∃ msg, stderr p' = (stderr p +:+ msg) +:+ nl)
  end.
Proof.
  unfold main_from_args.
  destruct (flag_Parse E listValue_Set ∅ args)
    as [dataArg gi D paths|code output] eqn:Hflags.
  - pose proof (diagnosed_main E dataArg gi D paths p) as Hd.
    destruct (main E dataArg gi D paths p); [done|by right].
  - left. by exists output.
Qed.

(** X23. Processing a list of specs is processing its first part and
    then, if that returned, the rest from the state it left; if the first
    part ended the process, the rest is not looked at. *)
Theorem process_sequence (E : Env) (formatter : Formatter E)
    (d : data (Value E)) (pre post : list pathSpec) (p : proc (World E)) :
  process E formatter d (pre ++ post) p =
  match process E formatter d pre p with
  | Returned _ p1 => process E formatter d post p1
  | Exited code p1 => Exited code p1
  end.
Proof. apply process_app. Qed.

(** ** The marker of generated Go files *)



